(** * The pyobjects renderer: declaration registry, requisites and factories

    A shallow embedding of [renderers/pyobjects.py].  The Python classes
    become records (one module per class for the field names) and their
    methods become functions; methods that mutate the registry or a
    [State] object are written in a state-and-exception monad over a
    [world] made of the object store and the registry.  Of the entry
    point [render] the grouping of the loaded names into the function
    lists of the factories is embedded; the rest of it and [SaltObject]
    rest on [exec] and on the Salt loader and are left out, as is
    [State.__str__]. *)

From Stdlib Require Import ZArith Ascii.
From stdpp Require Import sorting.
From stdpp Require Import base option list list_monad strings gmap functions.

(** ** Objects and values *)

(** [REQUISITES = ('require', 'watch', 'use', 'require_in', 'watch_in', 'use_in')] *)
Definition REQUISITES : list string :=
  ["require"; "watch"; "use"; "require_in"; "watch_in"; "use_in"].

(** [class StateExtend]: a wrapper around the id it tags. *)
Module StateExtend.
Record t := Build { name : string }.
End StateExtend.

(** What is passed as [id_]: a plain id, or one wrapped by [extend(...)]. *)
Inductive ident :=
| Id (s : string)
| Extend (e : StateExtend.t).

(** [class StateRequisite]: the fields set by [__init__].  Every object of
    a render shares the one registry of the [world], so the [registry]
    field is not repeated in the records. *)
Module StateRequisite.
Record t := Build { requisite : string; module : string; id_ : ident }.
End StateRequisite.

(** The Python values that reach the attribute mapping and the rendered
    data.  A [list] is the only value [isinstance(_, list)] accepts and the
    only one with an [append] method; a [StateRequisite] is the only one
    [isinstance(_, StateRequisite)] accepts.  Mappings keep their entries in
    order ([OrderedDict]); the plain dicts the code builds have one entry.
    Lists are held by value: a list object is taken not to be shared
    between two attribute slots. *)
#[warnings="-register-all"]
Inductive value :=
| VNone
| VBool (b : bool)
| VInt (n : Z)
| VStr (s : string)
| VList (l : list value)
| VDict (d : list (string * value))
| VReq (r : StateRequisite.t)
| VExtend (e : StateExtend.t).

Global Instance value_inhabited : Inhabited value := populate VNone.

Definition ident_value (i : ident) : value :=
  match i with
  | Id s => VStr s
  | Extend e => VExtend e
  end.

(** [StateRequisite.__call__]: [{self.module: self.id_}] *)
Definition StateRequisite_call (self : StateRequisite.t) : value :=
  VDict [(StateRequisite.module self, ident_value (StateRequisite.id_ self))].

(** ** Ordered dictionaries

    [salt.utils.odict.OrderedDict] as an association list in insertion
    order: assigning to a key that is present replaces its value in place,
    assigning to a new key appends it. *)
Section odict.
Context {A : Type}.

(** [k in d] *)
Definition od_in (k : string) (d : list (string * A)) : bool :=
  bool_decide (k ∈ d.*1).

(** [d[k]] *)
Fixpoint od_get (k : string) (d : list (string * A)) : option A :=
  match d with
  | [] => None
  | (k', v) :: d => if decide (k = k') then Some v else od_get k d
  end.

(** [d[k] = v] *)
Fixpoint od_set (k : string) (v : A) (d : list (string * A)) : list (string * A) :=
  match d with
  | [] => [(k, v)]
  | (k', v') :: d =>
      if decide (k = k') then (k, v) :: d else (k', v') :: od_set k v d
  end.

(** [OrderedDict(items)] *)
Definition OrderedDict (items : list (string * A)) : list (string * A) :=
  foldl (λ d kv, od_set kv.1 kv.2 d) [] items.
End odict.

(** ** Declarations *)

(** [class State]: the fields set by [__init__]; [requisite] is set last,
    after the registration. *)
Module State.
Record t := Build {
  id_ : ident;
  module : string;
  func : string;
  kwargs : gmap string value;
  requisite : option StateRequisite.t
}.

Definition set_kwargs (kw : gmap string value) (self : t) : t :=
  Build (id_ self) (module self) (func self) kw (requisite self).
Definition set_id_ (i : ident) (self : t) : t :=
  Build i (module self) (func self) (kwargs self) (requisite self).
Definition set_requisite (r : StateRequisite.t) (self : t) : t :=
  Build (id_ self) (module self) (func self) (kwargs self) (Some r).
End State.

Global Instance State_inhabited : Inhabited State.t :=
  populate (State.Build (Id "") "" "" ∅ None).

(** [req() if isinstance(req, StateRequisite) else req] *)
Definition requisite_dict (req : value) : value :=
  match req with
  | VReq r => StateRequisite_call r
  | _ => req
  end.

(** One turn of the loop [for attr in REQUISITES] of [State.attrs]. *)
Definition normalize_requisite (kwargs : gmap string value) (attr : string)
    : gmap string value :=
  match kwargs !! attr with
  | None => kwargs
  | Some (VList l) => <[attr := VList (requisite_dict <$> l)]> kwargs
  | Some v =>
      let kwargs := <[attr := VList [v]]> kwargs in
      <[attr := VList (requisite_dict <$> [v])]> kwargs
  end.

(** [sorted(kwargs.iterkeys())]: the keys are byte strings, compared
    byte by byte. *)
Definition sorted_keys (kwargs : gmap string value) : list string :=
  merge_sort String.le (map_to_list kwargs).*1.

(** [State.attrs].  The property rebinds the normalised lists in
    [self.kwargs], so the updated object is returned with the result. *)
Definition State_attrs (self : State.t) : State.t * list value :=
  let kwargs := foldl normalize_requisite (State.kwargs self) REQUISITES in
  (State.set_kwargs kwargs self,
   (λ k, VDict [(k, kwargs !!! k)]) <$> sorted_keys kwargs).

(** [State.full_func]: ["%s.%s" % (self.module, self.func)] *)
Definition State_full_func (self : State.t) : string :=
  State.module self +:+ "." +:+ State.func self.

(** [State.__call__]: [{self.full_func: self.attrs}] *)
Definition State_call (self : State.t) : State.t * value :=
  let '(self', attrs) := State_attrs self in
  (self', VDict [(State_full_func self, VList attrs)]).

(** ** The registry and the world *)

(** A reference to a [State] object. *)
Definition ref := nat.

(** [class StateRegistry]: the fields set by [empty]. *)
Module StateRegistry.
Record t := Build {
  states : list (string * ref);
  requisites : list StateRequisite.t;
  includes : list string;
  extends : list (string * ref)
}.
End StateRegistry.

(** The store of [State] objects, the next free reference, and the
    registry. *)
Record world := World {
  heap : ref → State.t;
  next : ref;
  registry : StateRegistry.t
}.

Inductive exn :=
| DuplicateState (msg : string)
| InvalidFunction (msg : string)
| AttributeError
| IndexError
| TypeError.

Inductive outcome (A : Type) :=
| Ok (a : A)
| Raise (e : exn).
Arguments Ok {A} a.
Arguments Raise {A} e.

(** Computations that read and write the world and may raise; the world
    at the point of the [raise] is kept. *)
Definition M (A : Type) : Type := world → outcome A * world.

Global Instance M_ret : MRet M := λ A a w, (Ok a, w).
Global Instance M_bind : MBind M := λ A B f m w,
  match m w with
  | (Ok a, w') => f a w'
  | (Raise e, w') => (Raise e, w')
  end.

Definition raise {A} (e : exn) : M A := λ w, (Raise e, w).
Definition get_registry : M StateRegistry.t := λ w, (Ok (registry w), w).
Definition put_registry (r : StateRegistry.t) : M unit :=
  λ w, (Ok (), World (heap w) (next w) r).
Definition load (r : ref) : M State.t := λ w, (Ok (heap w r), w).
Definition store (r : ref) (st : State.t) : M unit :=
  λ w, (Ok (), World (<[r := st]> (heap w)) (next w) (registry w)).
Definition alloc (st : State.t) : M ref :=
  λ w, (Ok (next w), World (<[next w := st]> (heap w)) (S (next w)) (registry w)).

(** Unfolds the monad operations in the goal. *)
Ltac run_M :=
  unfold mbind, M_bind, mret, M_ret, raise, get_registry, put_registry,
    load, store, alloc; cbn beta iota.

(** [for x in l: body(x)] *)
Fixpoint for_each {A} (l : list A) (body : A → M unit) : M unit :=
  match l with
  | [] => mret ()
  | x :: l => body x;; for_each l body
  end.

(** ** [StateRegistry] methods *)

Definition empty_registry : StateRegistry.t :=
  StateRegistry.Build [] [] [] [].

(** [StateRegistry.empty] *)
Definition StateRegistry_empty : M unit := put_registry empty_registry.

(** [StateRegistry.__init__]: [self.empty()] *)
Definition StateRegistry_init : M unit := StateRegistry_empty.

(** [StateRegistry.include]: [self.includes += args] *)
Definition StateRegistry_include (args : list string) : M unit :=
  self ← get_registry;
  put_registry (StateRegistry.Build (StateRegistry.states self)
                  (StateRegistry.requisites self)
                  (StateRegistry.includes self ++ args)
                  (StateRegistry.extends self)).

(** [StateRegistry.push_requisite]: [self.requisites.append(requisite)] *)
Definition StateRegistry_push_requisite (requisite : StateRequisite.t) : M unit :=
  self ← get_registry;
  put_registry (StateRegistry.Build (StateRegistry.states self)
                  (StateRegistry.requisites self ++ [requisite])
                  (StateRegistry.includes self)
                  (StateRegistry.extends self)).

(** [StateRegistry.pop_requisite]: [del self.requisites[-1]], an
    [IndexError] on the empty list. *)
Definition StateRegistry_pop_requisite : M unit :=
  self ← get_registry;
  match StateRegistry.requisites self with
  | [] => raise IndexError
  | rs =>
      put_registry (StateRegistry.Build (StateRegistry.states self)
                      (removelast rs)
                      (StateRegistry.includes self)
                      (StateRegistry.extends self))
  end.

(** [StateRegistry.make_extend] *)
Definition StateRegistry_make_extend (name : string) : StateExtend.t :=
  StateExtend.Build name.

(** [state.kwargs[key] = v] on the object behind [state]. *)
Definition set_kwarg (state : ref) (key : string) (v : value) : M unit :=
  st ← load state;
  store state (State.set_kwargs (<[key := v]> (State.kwargs st)) st).

(** The body of the loop [for req in self.requisites] of [add].  Only a
    list has [append]: any other value under the key raises
    [AttributeError].  The list is held by value, see [value]: the
    append is the one of the source where the list under the key is the
    value of no other attribute. *)
Definition add_requisite (state : ref) (req : StateRequisite.t) : M unit :=
  st ← load state;
  (if decide (State.kwargs st !! StateRequisite.requisite req = None)
   then set_kwarg state (StateRequisite.requisite req) (VList [])
   else mret ());;
  st ← load state;
  match State.kwargs st !! StateRequisite.requisite req with
  | Some (VList l) =>
      set_kwarg state (StateRequisite.requisite req)
        (VList (l ++ [StateRequisite_call req]))
  | _ => raise AttributeError
  end.

(** [attr = self.extends if extend else self.states] *)
Definition section_of (extend : bool) (self : StateRegistry.t) : list (string * ref) :=
  if extend then StateRegistry.extends self else StateRegistry.states self.

(** [attr[id_] = state] *)
Definition set_section (extend : bool) (id_ : string) (state : ref) : M unit :=
  self ← get_registry;
  put_registry
    (if extend
     then StateRegistry.Build (StateRegistry.states self)
            (StateRegistry.requisites self) (StateRegistry.includes self)
            (od_set id_ state (StateRegistry.extends self))
     else StateRegistry.Build (od_set id_ state (StateRegistry.states self))
            (StateRegistry.requisites self) (StateRegistry.includes self)
            (StateRegistry.extends self)).

(** ["A state with id '%s' already exists" % id_] *)
Definition duplicate_message (id_ : string) : string :=
  "A state with id '" +:+ id_ +:+ "' already exists".

(** [StateRegistry.add] *)
Definition StateRegistry_add (id_ : string) (state : ref) (extend : bool) : M unit :=
  self ← get_registry;
  if od_in id_ (section_of extend self)
  then raise (DuplicateState (duplicate_message id_))
  else
    (if bool_decide (0 < length (StateRegistry.requisites self))
     then for_each (StateRegistry.requisites self) (add_requisite state)
     else mret ());;
    set_section extend id_ state.

(** [StateRegistry.extend] *)
Definition StateRegistry_extend (id_ : string) (state : ref) : M unit :=
  StateRegistry_add id_ state true.

(** [state()] on the object behind [state]. *)
Definition call_state (state : ref) : M value :=
  st ← load state;
  let '(st', v) := State_call st in
  store state st';;
  mret v.

(** [[(id_, state()) for id_, state in items]] *)
Definition call_states (items : list (string * ref)) : M (list (string * value)) :=
  mapM (λ item, v ← call_state item.2; mret (item.1, v)) items.

(** [StateRegistry.salt_data] *)
Definition StateRegistry_salt_data : M value :=
  self ← get_registry;
  items ← call_states (StateRegistry.states self);
  let states := OrderedDict items in
  let states :=
    if bool_decide (StateRegistry.includes self ≠ [])
    then od_set "include" (VList (VStr <$> StateRegistry.includes self)) states
    else states in
  states ←
    (if bool_decide (StateRegistry.extends self ≠ [])
     then
       items ← call_states (StateRegistry.extends self);
       mret (od_set "extend" (VDict (OrderedDict items)) states)
     else mret states);
  StateRegistry_empty;;
  mret (VDict states).

(** ** [StateRequisite] and [State] as scope guards, [State.__init__] *)

(** [StateRequisite.__enter__] and [__exit__] *)
Definition StateRequisite_enter (self : StateRequisite.t) : M unit :=
  StateRegistry_push_requisite self.
Definition StateRequisite_exit : M unit := StateRegistry_pop_requisite.

(** [State.__init__] *)
Definition State_init (id_ : ident) (module func : string)
    (kwargs : gmap string value) : M ref :=
  self ← alloc (State.Build id_ module func kwargs None);
  match id_ with
  | Extend e =>
      StateRegistry_extend (StateExtend.name e) self;;
      st ← load self;
      store self (State.set_id_ (Id (StateExtend.name e)) st)
  | Id s => StateRegistry_add s self false
  end;;
  st ← load self;
  store self
    (State.set_requisite
       (StateRequisite.Build "require" (State.module st) (State.id_ st)) st);;
  mret self.

(** [State.__enter__]: [self.registry.push_requisite(self.requisite)].
    A constructed [State] always has its [requisite]. *)
Definition State_enter (self : ref) : M unit :=
  st ← load self;
  match State.requisite st with
  | Some r => StateRegistry_push_requisite r
  | None => raise AttributeError
  end.
Definition State_exit : M unit := StateRegistry_pop_requisite.

(** ** [StateFactory] *)

Module StateFactory.
Record t := Build { module : string; valid_funcs : list string }.
End StateFactory.

(** [StateFactory.__init__]: [valid_funcs=None] becomes [[]]. *)
Definition StateFactory_init (module : string) (valid_funcs : option (list string))
    : StateFactory.t :=
  StateFactory.Build module (default [] valid_funcs).

(** The closure [make_state] returned by [__getattr__]: it captures
    [self] and [func]. *)
Record make_state := MakeState { ms_self : StateFactory.t; ms_func : string }.

(** ["The function '%s' does not exist in the StateFactory for '%s'"
    % (func, self.module)] *)
Definition invalid_message (func module : string) : string :=
  "The function '" +:+ func +:+ "' does not exist in the StateFactory for '"
    +:+ module +:+ "'".

(** [StateFactory.__getattr__] *)
Definition StateFactory_getattr (self : StateFactory.t) (func : string) : M make_state :=
  if bool_decide (0 < length (StateFactory.valid_funcs self))
     && negb (bool_decide (func ∈ StateFactory.valid_funcs self))
  then raise (InvalidFunction (invalid_message func (StateFactory.module self)))
  else mret (MakeState self func).

(** The parameters of [State.__init__]: a keyword argument of one of
    these names clashes with the argument [make_state] passes itself. *)
Definition State_parameters : list string :=
  ["self"; "id_"; "module"; "func"; "registry"].

(** Calling the closure:
    [State(id_, self.module, func, registry=self.registry, **kwargs)].
    Python raises [TypeError] (multiple values for a keyword argument),
    before [State.__init__] runs, when [kwargs] has a key that names a
    parameter of [State.__init__]. *)
Definition call_make_state (f : make_state) (id_ : ident)
    (kwargs : gmap string value) : M ref :=
  if bool_decide (Exists (λ k, is_Some (kwargs !! k)) State_parameters)
  then raise TypeError
  else State_init id_ (StateFactory.module (ms_self f)) (ms_func f) kwargs.

(** [self.__getattr__(func)(id_, **kwargs)]: the method [__getattr__],
    and the call of the closure it returns.  This is what
    [factory.func(id_, **kwargs)] runs when [func] is no attribute of the
    factory object, see [StateFactory_invoke]. *)
Definition invoke (self : StateFactory.t) (func : string) (id_ : ident)
    (kwargs : gmap string value) : M ref :=
  f ← StateFactory_getattr self func;
  call_make_state f id_ kwargs.

(** The attributes [__init__] sets on a factory: a [str], the registry
    and a [list], none of them callable. *)
Definition instance_attributes : list string :=
  ["module"; "registry"; "valid_funcs"].

(** The attributes a factory has from its class and from [object]
    (Python 2.7): normal lookup finds them as it finds the instance
    attributes, and [__getattr__] is not called for them. *)
Definition class_attributes : list string :=
  ["__call__"; "__class__"; "__delattr__"; "__dict__"; "__doc__";
   "__format__"; "__getattr__"; "__getattribute__"; "__hash__"; "__init__";
   "__module__"; "__new__"; "__reduce__"; "__reduce_ex__"; "__repr__";
   "__setattr__"; "__sizeof__"; "__str__"; "__subclasshook__"; "__weakref__"].

(** [factory.func(id_, **kwargs)], attribute-style invocation.  Python
    calls [__getattr__] only when normal lookup fails.  An instance
    attribute is found and called: [TypeError], the object is not
    callable.  The calls of the attributes of the class are no
    invocations of an operation and are left out ([None]). *)
Definition StateFactory_invoke (self : StateFactory.t) (func : string)
    (id_ : ident) (kwargs : gmap string value) : option (M ref) :=
  if bool_decide (func ∈ instance_attributes) then Some (raise TypeError)
  else if bool_decide (func ∈ class_attributes) then None
  else Some (invoke self func id_ kwargs).

(** [StateFactory.__call__]: [requisite='require'] by default. *)
Definition StateFactory_call (self : StateFactory.t) (id_ : ident)
    (requisite : option string) : StateRequisite.t :=
  StateRequisite.Build (default "require" requisite) (StateFactory.module self) id_.

(** ** Vocabulary of the statements *)

(** [add] can append the edge of [req]: the relation key of [req] is
    absent from the attributes or holds a list. *)
Definition appendable (kwargs : gmap string value) (req : StateRequisite.t) : Prop :=
  match kwargs !! StateRequisite.requisite req with
  | Some (VList _) | None => True
  | Some _ => False
  end.

Global Instance appendable_dec kw req : Decision (appendable kw req).
Proof.
  unfold appendable.
  destruct (kw !! StateRequisite.requisite req) as [[]|]; apply _.
Defined.

(** The serialized edges of the requisites of [rs] whose relation is [k],
    in the order of [rs]. *)
Definition edges_for (k : string) (rs : list StateRequisite.t) : list value :=
  StateRequisite_call <$> filter (λ req, StateRequisite.requisite req = k) rs.

(** The elements of the list the author supplied under a key, if any. *)
Definition supplied (v : option value) : list value :=
  match v with
  | Some (VList l) => l
  | _ => []
  end.

(** What one turn of the loop of [add] does to the attributes when the
    edge is appendable. *)
Definition append_edge (kwargs : gmap string value) (req : StateRequisite.t)
    : gmap string value :=
  match kwargs !! StateRequisite.requisite req with
  | None =>
      <[StateRequisite.requisite req := VList [StateRequisite_call req]]> kwargs
  | Some (VList l) =>
      <[StateRequisite.requisite req := VList (l ++ [StateRequisite_call req])]> kwargs
  | Some _ => kwargs
  end.

(** The value [State.attrs] leaves under a relation key that held [v]. *)
Definition normalized (v : value) : value :=
  VList (requisite_dict <$> match v with VList l => l | _ => [v] end).

(** What [state()] returns for the object behind each item. *)
Definition rendered_items (h : ref → State.t) (items : list (string * ref))
    : list (string * value) :=
  (λ item, (item.1, (State_call (h item.2)).2)) <$> items.

(** Registering the declarations of [decls] one after the other. *)
Definition register_all (decls : list (string * ref)) (extend : bool) : M unit :=
  for_each decls (λ d, StateRegistry_add d.1 d.2 extend).

(** [w'] is [w] with the attributes of the object behind [state]
    replaced by [kwargs']. *)
Definition kwargs_updated (state : ref) (kwargs' : gmap string value)
    (w w' : world) : Prop :=
  registry w' = registry w ∧ next w' = next w ∧
  (∀ r, r ≠ state → heap w' r = heap w r) ∧
  heap w' state = State.set_kwargs kwargs' (heap w state).

(** Every object of [h'] is the one of [h], or the one [state()] leaves
    behind. *)
Definition heap_called (h h' : ref → State.t) : Prop :=
  ∀ r, h' r = h r ∨ h' r = (State_call (h r)).1.

(** The mapping [salt_data] builds in the world [w]. *)
Definition rendered (w : world) : list (string * value) :=
  let self := registry w in
  let states := OrderedDict (rendered_items (heap w) (StateRegistry.states self)) in
  let states :=
    if bool_decide (StateRegistry.includes self ≠ [])
    then od_set "include" (VList (VStr <$> StateRegistry.includes self)) states
    else states in
  if bool_decide (StateRegistry.extends self ≠ [])
  then od_set "extend"
         (VDict (OrderedDict (rendered_items (heap w) (StateRegistry.extends self))))
         states
  else states.

(** The id a declaration is registered under, and its section. *)
Definition ident_name (i : ident) : string :=
  match i with
  | Id s => s
  | Extend e => StateExtend.name e
  end.

Definition is_extend (i : ident) : bool :=
  match i with
  | Id _ => false
  | Extend _ => true
  end.

(** The items [id: {full_func: attrs}] of the declarations of [decls], in
    the order of [decls]. *)
Definition declaration_items (h : ref → State.t) (decls : list (string * ref))
    : list (string * value) :=
  (λ d, (d.1, VDict [(State_full_func (h d.2), VList (State_attrs (h d.2)).2)]))
    <$> decls.

(** Registering [decls] in the world [w] succeeds and [salt_data] then
    lists their ids in the order of [decls], each with its
    [{full_func: attrs}]: for the states section in the returned mapping,
    where nothing but the keys ['include'] and ['extend'] may follow them;
    for the extend section in the mapping under the key ['extend']. *)
Definition lists_in_order (decls : list (string * ref)) (extend : bool)
    (w : world) : Prop :=
  ∃ w1 d w2,
    register_all decls extend w = (Ok (), w1) ∧
    StateRegistry_salt_data w1 = (Ok (VDict d), w2) ∧
    if extend
    then decls ≠ [] →
         od_get "extend" d = Some (VDict (declaration_items (heap w1) decls))
    else ∃ rest,
         d = declaration_items (heap w1) decls ++ rest ∧
         ∀ k, k ∈ rest.*1 → k = "include" ∨ k = "extend".

(** The registrations the order claim is about: distinct ids, into a
    section that is empty, of declarations that accept the scope edges. *)
Definition registrable (decls : list (string * ref)) (extend : bool)
    (w : world) : Prop :=
  section_of extend (registry w) = [] ∧
  NoDup decls.*1 ∧
  ∀ d, d ∈ decls →
    Forall (appendable (State.kwargs (heap w d.2)))
      (StateRegistry.requisites (registry w)).

(** At most one relation key of the requisites of [rs] is present in
    [kwargs].  [add] creates the list of every absent key, so the lists
    it appends the edges of [rs] to are then distinct objects. *)
Definition one_supplied (kwargs : gmap string value)
    (rs : list StateRequisite.t) : Prop :=
  ∀ r r', r ∈ rs → r' ∈ rs →
    is_Some (kwargs !! StateRequisite.requisite r) →
    is_Some (kwargs !! StateRequisite.requisite r') →
    StateRequisite.requisite r = StateRequisite.requisite r'.

(** Absent, or a value that holds no list. *)
Definition scalar (v : option value) : Prop :=
  match v with
  | Some (VList _) | Some (VDict _) => False
  | _ => True
  end.

(** The names normal lookup finds on a factory: for them
    [factory.name] does not call [__getattr__]. *)
Definition factory_attributes : list string :=
  instance_attributes ++ class_attributes.

(** [__getattr__] refuses [func]: the list of valid functions is not
    empty and [func] is not in it. *)
Definition refused (self : StateFactory.t) (func : string) : Prop :=
  StateFactory.valid_funcs self ≠ [] ∧ func ∉ StateFactory.valid_funcs self.

Global Instance refused_dec self func : Decision (refused self func).
Proof. unfold refused. apply _. Defined.

(** The run of [m] in [w] returns a new object, of the module of [self]
    and of the function [func], registered under the id [id_] in the
    section the id selects. *)
Definition constructs (self : StateFactory.t) (func : string) (id_ : ident)
    (m : M ref) (w : world) : Prop :=
  ∃ w',
    m w = (Ok (next w), w') ∧
    State.module (heap w' (next w)) = StateFactory.module self ∧
    State.func (heap w' (next w)) = func ∧
    od_get (ident_name id_) (section_of (is_extend id_) (registry w')) =
      Some (next w).

(** [factory.func(id_, **kwargs)] in the world [w] is an invocation that
    raises [InvalidFunction] exactly when [func] is refused, and that
    otherwise constructs the declaration. *)
Definition checks_valid_funcs (self : StateFactory.t) (func : string)
    (id_ : ident) (kwargs : gmap string value) (w : world) : Prop :=
  ∃ m, StateFactory_invoke self func id_ kwargs = Some m ∧
    ((∃ msg, (m w).1 = Raise (InvalidFunction msg)) ↔ refused self func) ∧
    (¬ refused self func → constructs self func id_ m w).

(** ** Sample inputs *)

(** The world of [render] before the program runs: no object, and the
    registry as [StateRegistry()] creates it. *)
Definition fresh_world : world :=
  (StateRegistry_init (World (λ _, inhabitant) 0 empty_registry)).2.

Definition File : StateFactory.t := StateFactory_init "file" (Some ["managed"]).
Definition Pkg : StateFactory.t := StateFactory_init "pkg" (Some ["installed"]).

(** A world with one object [st] at reference [0], not yet registered,
    inside the scope [with File('/etc/a')]. *)
Definition scoped_world (st : State.t) : world :=
  World (<[0 := st]> (λ _, inhabitant)) 1
    (StateRegistry.Build [] [StateFactory_call File (Id "/etc/a") None] [] []).

(** [require=Pkg('nginx')]: a single requisite, not wrapped in a list. *)
Definition single_require : State.t :=
  State.Build (Id "/etc/b") "file" "managed"
    {[ "require" := VReq (StateFactory_call Pkg (Id "nginx") None) ]} None.

(** [require=[Pkg('nginx')]] *)
Definition list_require : State.t :=
  State.Build (Id "/etc/b") "file" "managed"
    {[ "require" := VList [VReq (StateFactory_call Pkg (Id "nginx") None)] ]} None.

(** [with File('/etc/a'): File.managed('/etc/b', require=Pkg('nginx'))] *)
Definition single_require_program : M ref :=
  StateRequisite_enter (StateFactory_call File (Id "/etc/a") None);;
  invoke File "managed" (Id "/etc/b")
    {[ "require" := VReq (StateFactory_call Pkg (Id "nginx") None) ]}.

(** A registry with [include('foo')] called, and a [file.managed] object
    at reference [0] to be registered under the id ['include']. *)
Definition include_world : world :=
  World (<[0 := State.Build (Id "include") "file" "managed" ∅ None]> (λ _, inhabitant))
    1 (StateRegistry.Build [] [] ["foo"] []).

(** A registry where the id ['a'] is registered in the states section. *)
Definition taken_world : world :=
  World (λ _, inhabitant) 2 (StateRegistry.Build [("a", 0)] [] [] []).

(** Two objects and an empty registry. *)
Definition two_objects_world : world :=
  World (<[0 := State.Build (Id "/etc/a") "file" "managed"
                   {[ "owner" := VStr "root" ]} None]>
           (<[1 := State.Build (Id "/etc/b") "file" "managed" ∅ None]>
              (λ _, inhabitant)))
    2 empty_registry.

(** A registry with a declaration in the extend section, and a
    [file.managed] object at reference [0] to be registered under the id
    ['extend']. *)
Definition extend_world : world :=
  World (λ _, State.Build (Id "x") "file" "managed" ∅ None) 2
    (StateRegistry.Build [] [] [] [("apache", 1)]).

(** Declarations registered under the ids ['include'] and ['extend'], with
    an include and an extended declaration. *)
Definition reserved_world : world :=
  World (λ _, State.Build (Id "x") "file" "managed" ∅ None) 3
    (StateRegistry.Build [("include", 0); ("extend", 1)] [] ["foo"] [("apache", 2)]).

(** A declaration with a single requisite and a list under relation keys. *)
Definition sample_attrs : State.t :=
  State.Build (Id "/etc/b") "file" "managed"
    (list_to_map
       [("watch", VReq (StateRequisite.Build "require" "service" (Id "nginx")));
        ("require", VList [VDict [("pkg", VStr "nginx")];
                           VReq (StateRequisite.Build "require" "file" (Id "/etc/a"))]);
        ("owner", VStr "root")])
    None.

(** ** [with] blocks and sequences of calls *)

(** [with mgr: body], where [enter] is [mgr.__enter__()] and [exit] is
    [mgr.__exit__(...)]: the body runs after [enter], and [exit] runs
    after the body whether it returned or raised.  The [__exit__] methods
    of [StateRequisite] and [State] return [None], so an exception of the
    body is raised again after [exit]; an exception of [exit] itself takes
    its place. *)
Definition with_block {A} (enter exit : M unit) (body : M A) : M A := λ w,
  match enter w with
  | (Raise e, w1) => (Raise e, w1)
  | (Ok _, w1) =>
      match body w1 with
      | (Ok a, w2) =>
          match exit w2 with
          | (Ok _, w3) => (Ok a, w3)
          | (Raise e, w3) => (Raise e, w3)
          end
      | (Raise e, w2) =>
          match exit w2 with
          | (Ok _, w3) => (Raise e, w3)
          | (Raise e', w3) => (Raise e', w3)
          end
      end
  end.

(** [with req: body] for a [StateRequisite] *)
Definition with_requisite {A} (req : StateRequisite.t) (body : M A) : M A :=
  with_block (StateRequisite_enter req) StateRequisite_exit body.

(** [with state: body] for a [State] *)
Definition with_state {A} (state : ref) (body : M A) : M A :=
  with_block (State_enter state) State_exit body.

(** The calls a program can make on the registry and its objects:
    [State(...)], [factory.func(...)] for a name [func] that reaches
    [__getattr__], the methods of the registry, [state.__enter__()]. *)
Inductive call :=
| CallState (id_ : ident) (module func : string) (kwargs : gmap string value)
| CallFactory (factory : StateFactory.t) (func : string) (id_ : ident)
    (kwargs : gmap string value)
| CallAdd (id_ : string) (state : ref) (extend : bool)
| CallInclude (args : list string)
| CallPush (req : StateRequisite.t)
| CallPop
| CallEnter (state : ref)
| CallSaltData.

Definition run_call (c : call) : M unit :=
  match c with
  | CallState id_ module func kwargs => State_init id_ module func kwargs;; mret ()
  | CallFactory factory func id_ kwargs => invoke factory func id_ kwargs;; mret ()
  | CallAdd id_ state extend => StateRegistry_add id_ state extend
  | CallInclude args => StateRegistry_include args
  | CallPush req => StateRegistry_push_requisite req
  | CallPop => StateRegistry_pop_requisite
  | CallEnter state => State_enter state
  | CallSaltData => StateRegistry_salt_data;; mret ()
  end.

(** The world after the calls of [cs], made one after the other; a call
    that raises leaves its world to the next one, as when the program
    catches the exception. *)
Definition after_calls (cs : list call) (w : world) : world :=
  foldl (λ w c, (run_call c w).2) w cs.

(** ** The operations [render] offers

    The first loops of [render]: the names [mod.func] of the loaded states
    are grouped by module, and the functions of each module sorted. *)

(** [s.split(".")] *)
Fixpoint split_dot (s : string) : list string :=
  match s with
  | EmptyString => [EmptyString]
  | String c s' =>
      if Ascii.eqb c "."%char then EmptyString :: split_dot s'
      else
        match split_dot s' with
        | piece :: pieces => String c piece :: pieces
        | [] => [String c EmptyString]
        end
  end.

(** The body of the loop [for func in _states]; the unpacking
    [(mod, func) = func.split(".")] raises [ValueError], here [None],
    unless the name has exactly two pieces. *)
Definition st_funcs_step (st_funcs : gmap string (list string)) (name : string)
    : option (gmap string (list string)) :=
  match split_dot name with
  | [mod_; func] =>
      let st_funcs :=
        if decide (st_funcs !! mod_ = None) then <[mod_ := []]> st_funcs
        else st_funcs in
      Some (<[mod_ := st_funcs !!! mod_ ++ [func]]> st_funcs)
  | _ => None
  end.

(** [for func in _states: ...] *)
Fixpoint st_funcs_loop (st_funcs : gmap string (list string)) (names : list string)
    : option (gmap string (list string)) :=
  match names with
  | [] => Some st_funcs
  | name :: names =>
      st_funcs ← st_funcs_step st_funcs name;
      st_funcs_loop st_funcs names
  end.

(** [_st_funcs] after [_st_funcs[mod].sort()] for every [mod]: the
    [valid_funcs] of the factory [render] creates for each module. *)
Definition render_valid_funcs (names : list string)
    : option (gmap string (list string)) :=
  match st_funcs_loop ∅ names with
  | Some st_funcs => Some (merge_sort String.le <$> st_funcs)
  | None => None
  end.

(** The name has no ['.']. *)
Fixpoint dotless (s : string) : bool :=
  match s with
  | EmptyString => true
  | String c s' => negb (Ascii.eqb c "."%char) && dotless s'
  end.

(** [with File('/etc/a', 'watch'): body] in a fresh registry. *)
Definition watch_scope : StateRequisite.t :=
  StateFactory_call File (Id "/etc/a") (Some "watch").

(** The object [single_require] at reference [0], inside
    [with File('/etc/a', 'watch'):] and, within it, [with File('/etc/a'):]. *)
Definition two_scopes_world : world :=
  World (<[0 := single_require]> (λ _, inhabitant)) 1
    (StateRegistry.Build []
       [watch_scope; StateFactory_call File (Id "/etc/a") None] [] []).

(** * Properties *)

(** ** Ordered dictionaries *)

Section odict_facts.
Context {A : Type}.
Implicit Types (d items : list (string * A)) (k : string) (v : A).

Lemma od_in_true k d : od_in k d = true ↔ k ∈ d.*1.
Proof. unfold od_in. apply bool_decide_eq_true. Qed.

Lemma od_in_false k d : od_in k d = false ↔ k ∉ d.*1.
Proof. unfold od_in. apply bool_decide_eq_false. Qed.

Lemma od_get_set_eq k v d : od_get k (od_set k v d) = Some v.
Proof.
  induction d as [|[k' v'] d IH]; simpl.
  - by rewrite decide_True.
  - destruct (decide (k = k')) as [->|Hne]; simpl.
    + by rewrite decide_True.
    + by rewrite decide_False.
Qed.

Lemma od_get_set_ne k k' v d : k ≠ k' → od_get k (od_set k' v d) = od_get k d.
Proof.
  intros Hne. induction d as [|[k'' v''] d IH]; simpl.
  - by rewrite decide_False.
  - destruct (decide (k' = k'')) as [->|Hne']; simpl.
    + by rewrite !decide_False.
    + by rewrite IH.
Qed.

Lemma od_get_None k d : od_get k d = None ↔ k ∉ d.*1.
Proof.
  induction d as [|[k' v'] d IH]; simpl.
  - split; [intros _; apply not_elem_of_nil | done].
  - rewrite not_elem_of_cons. destruct (decide (k = k')) as [->|Hne].
    + split; [done | by intros [? _]].
    + rewrite IH. tauto.
Qed.

Lemma od_set_fresh k v d : k ∉ d.*1 → od_set k v d = d ++ [(k, v)].
Proof.
  induction d as [|[k' v'] d IH]; simpl; [done|].
  rewrite not_elem_of_cons. intros [Hne Hnin].
  by rewrite decide_False, IH.
Qed.

Lemma od_set_keys k v d :
  (od_set k v d).*1 = if od_in k d then d.*1 else d.*1 ++ [k].
Proof.
  induction d as [|[k' v'] d IH]; [done|].
  cbn [od_set]. destruct (decide (k = k')) as [->|Hne]; csimpl.
  - assert (od_in k' ((k', v') :: d) = true) as ->; [|done].
    apply od_in_true. csimpl. apply elem_of_cons; by left.
  - rewrite IH. destruct (od_in k d) eqn:Hin.
    + assert (od_in k ((k', v') :: d) = true) as ->; [|done].
      apply od_in_true. csimpl. apply elem_of_cons; right. by apply od_in_true.
    + assert (od_in k ((k', v') :: d) = false) as ->; [|done].
      apply od_in_false. csimpl. rewrite not_elem_of_cons.
      split; [done | by apply od_in_false].
Qed.

Lemma elem_of_od_set_keys k k' v d :
  k' ∈ (od_set k v d).*1 ↔ k' = k ∨ k' ∈ d.*1.
Proof.
  rewrite od_set_keys. destruct (od_in k d) eqn:Hin.
  - apply od_in_true in Hin. split; [auto | by intros [->|?]].
  - rewrite elem_of_app, list_elem_of_singleton. tauto.
Qed.

Lemma NoDup_od_set k v d : NoDup d.*1 → NoDup (od_set k v d).*1.
Proof.
  intros Hd. rewrite od_set_keys. destruct (od_in k d) eqn:Hin; [done|].
  apply od_in_false in Hin. apply list.NoDup_app. split_and!; [done | | apply NoDup_singleton].
  intros x Hx ->%list_elem_of_singleton. done.
Qed.

Lemma OrderedDict_snoc items k v :
  OrderedDict (items ++ [(k, v)]) = od_set k v (OrderedDict items).
Proof. unfold OrderedDict. by rewrite foldl_app. Qed.

Lemma NoDup_OrderedDict items : NoDup (OrderedDict items).*1.
Proof.
  induction items as [|[k v] items IH] using rev_ind.
  - apply NoDup_nil_2.
  - rewrite OrderedDict_snoc. by apply NoDup_od_set.
Qed.

Lemma elem_of_OrderedDict_keys k items :
  k ∈ (OrderedDict items).*1 ↔ k ∈ items.*1.
Proof.
  induction items as [|[k' v] items IH] using rev_ind; [done|].
  rewrite OrderedDict_snoc, elem_of_od_set_keys, IH, fmap_app, elem_of_app.
  simpl. rewrite list_elem_of_singleton. tauto.
Qed.

(** Items with distinct keys are kept as they are, in their order. *)
Lemma OrderedDict_NoDup items : NoDup items.*1 → OrderedDict items = items.
Proof.
  induction items as [|[k v] items IH] using rev_ind; [done|].
  rewrite fmap_app. intros (Hnd & Hnin & _)%list.NoDup_app.
  rewrite OrderedDict_snoc, IH by done. apply od_set_fresh.
  intros Hk. apply (Hnin k Hk). simpl. by apply list_elem_of_singleton.
Qed.
End odict_facts.

(** ** Attributes: scope edges and normalisation *)

Lemma appendable_append_edge kw req req' :
  appendable kw req' → appendable (append_edge kw req) req'.
Proof.
  unfold appendable, append_edge.
  destruct (decide (StateRequisite.requisite req' = StateRequisite.requisite req))
    as [->|Hne].
  - destruct (kw !! StateRequisite.requisite req) as [[]|] eqn:Hk;
      rewrite ?Hk, ?lookup_insert_eq; done.
  - destruct (kw !! StateRequisite.requisite req) as [[]|];
      rewrite ?lookup_insert_ne by done; done.
Qed.

Lemma append_edge_lookup kw req k :
  appendable kw req →
  append_edge kw req !! k =
    if decide (k = StateRequisite.requisite req)
    then Some (VList (supplied (kw !! k) ++ [StateRequisite_call req]))
    else kw !! k.
Proof.
  unfold appendable, append_edge. intros Happ.
  destruct (decide (k = StateRequisite.requisite req)) as [->|Hne].
  - destruct (kw !! StateRequisite.requisite req) as [[]|];
      rewrite ?lookup_insert_eq; done.
  - destruct (kw !! StateRequisite.requisite req) as [[]|];
      rewrite ?lookup_insert_ne by done; done.
Qed.

Lemma edges_for_cons k req rs :
  edges_for k (req :: rs) =
    if decide (StateRequisite.requisite req = k)
    then StateRequisite_call req :: edges_for k rs
    else edges_for k rs.
Proof. unfold edges_for. rewrite filter_cons. by case_decide. Qed.

(** The attributes after the loop of [add] over the stack [rs]: each
    relation key holds what the author supplied, then the edges of the
    stack for that relation, oldest first. *)
Lemma foldl_append_edge_lookup rs kw k :
  Forall (appendable kw) rs →
  foldl append_edge kw rs !! k =
    match edges_for k rs with
    | [] => kw !! k
    | es => Some (VList (supplied (kw !! k) ++ es))
    end.
Proof.
  revert kw. induction rs as [|req rs IH]; intros kw Hall; [done|].
  inversion_clear Hall as [|?? Hreq Hall']. cbn [foldl].
  rewrite IH
    by (eapply List.Forall_impl; [intros ?; apply appendable_append_edge | exact Hall']).
  rewrite edges_for_cons, append_edge_lookup by done.
  destruct (decide (StateRequisite.requisite req = k)) as [<-|Hne].
  - rewrite decide_True by done. destruct (edges_for _ rs); [done|].
    cbn [supplied]. by rewrite <-(assoc_L (++)).
  - by rewrite decide_False.
Qed.

Lemma NoDup_REQUISITES : NoDup REQUISITES.
Proof. compute_done. Qed.

Lemma normalize_requisite_lookup kw attr k :
  normalize_requisite kw attr !! k =
    if decide (k = attr) then normalized <$> kw !! k else kw !! k.
Proof.
  unfold normalize_requisite, normalized.
  destruct (decide (k = attr)) as [->|Hne].
  - destruct (kw !! attr) as [[]|] eqn:Hk; rewrite ?lookup_insert_eq, ?Hk; done.
  - destruct (kw !! attr) as [[]|]; rewrite ?lookup_insert_ne by done; done.
Qed.

Lemma foldl_normalize_lookup attrs kw k :
  NoDup attrs →
  foldl normalize_requisite kw attrs !! k =
    if decide (k ∈ attrs) then normalized <$> kw !! k else kw !! k.
Proof.
  revert kw. induction attrs as [|attr attrs IH]; intros kw Hnd.
  - rewrite decide_False; [done | apply not_elem_of_nil].
  - apply list.NoDup_cons in Hnd as [Hnin Hnd]. cbn [foldl].
    rewrite IH, normalize_requisite_lookup by done.
    destruct (decide (k = attr)) as [->|Hne].
    + rewrite (decide_False (P := attr ∈ attrs)) by done.
      rewrite decide_True; [done | apply elem_of_cons; by left].
    + destruct (decide (k ∈ attrs)).
      * rewrite decide_True; [done | apply elem_of_cons; by right].
      * rewrite decide_False; [done | rewrite not_elem_of_cons; done].
Qed.

Lemma requisite_dict_idemp v : requisite_dict (requisite_dict v) = requisite_dict v.
Proof. by destruct v. Qed.

Lemma normalized_idemp v : normalized (normalized v) = normalized v.
Proof.
  unfold normalized at 1 3. cbn. f_equal. rewrite <-list_fmap_compose.
  apply list_fmap_ext. intros _ x _. apply requisite_dict_idemp.
Qed.

Lemma normalize_idemp kw :
  foldl normalize_requisite (foldl normalize_requisite kw REQUISITES) REQUISITES =
  foldl normalize_requisite kw REQUISITES.
Proof.
  apply map_eq. intros k.
  rewrite !foldl_normalize_lookup by apply NoDup_REQUISITES.
  case_decide; [|done]. rewrite <-option_fmap_compose.
  apply option_fmap_ext. intros v. apply normalized_idemp.
Qed.

(** ** Sorted keys *)

Lemma elem_of_sorted_keys kw k : k ∈ sorted_keys kw ↔ is_Some (kw !! k).
Proof.
  unfold sorted_keys. rewrite merge_sort_Permutation, list_elem_of_fmap.
  split.
  - intros ([k' v] & -> & Hin). apply elem_of_map_to_list in Hin. by exists v.
  - intros [v Hv]. exists (k, v). split; [done | by apply elem_of_map_to_list].
Qed.

Lemma NoDup_sorted_keys kw : NoDup (sorted_keys kw).
Proof.
  unfold sorted_keys. rewrite merge_sort_Permutation.
  apply NoDup_fst_map_to_list.
Qed.

Lemma StronglySorted_sorted_keys kw : StronglySorted String.le (sorted_keys kw).
Proof. apply StronglySorted_merge_sort; apply _. Qed.

Lemma length_sorted_keys kw : length (sorted_keys kw) = size kw.
Proof.
  unfold sorted_keys. by rewrite merge_sort_Permutation, length_fmap, length_map_to_list.
Qed.

(** The sorted keys depend on the set of keys only. *)
Lemma sorted_keys_ext kw1 kw2 :
  (∀ k, is_Some (kw1 !! k) ↔ is_Some (kw2 !! k)) →
  sorted_keys kw1 = sorted_keys kw2.
Proof.
  intros Hdom. apply (StronglySorted_unique String.le);
    [apply StronglySorted_sorted_keys .. |].
  apply NoDup_Permutation; [apply NoDup_sorted_keys .. |].
  intros k. by rewrite !elem_of_sorted_keys.
Qed.

Lemma le_neq_ltb (s1 s2 : string) : String.le s1 s2 → s1 ≠ s2 → String.ltb s1 s2 = true.
Proof.
  unfold String.le, String.leb, String.ltb. intros Hle Hne.
  destruct (String.compare s1 s2) eqn:Hc; [|done..].
  by apply String.compare_eq_iff in Hc.
Qed.

Lemma StronglySorted_lookup {A} (R : relation A) (l : list A) i j x y :
  StronglySorted R l → i < j → l !! i = Some x → l !! j = Some y → R x y.
Proof.
  intros Hs. revert i j. induction Hs as [|a l Hs IH Hall]; intros i j Hij Hi Hj.
  - by rewrite lookup_nil in Hi.
  - destruct i as [|i], j as [|j]; try lia; simplify_eq/=.
    + eapply Forall_lookup_1; [exact Hall | exact Hj].
    + apply (IH i j); [lia | done..].
Qed.

(** In the sorted keys, an earlier key is strictly below a later one. *)
Lemma sorted_keys_ascending kw i j ki kj :
  i < j → sorted_keys kw !! i = Some ki → sorted_keys kw !! j = Some kj →
  String.ltb ki kj = true.
Proof.
  intros Hij Hi Hj. apply le_neq_ltb.
  - eapply (StronglySorted_lookup String.le); [apply StronglySorted_sorted_keys | done..].
  - intros ->. pose proof (NoDup_sorted_keys kw) as Hnd.
    eapply NoDup_lookup in Hnd; [|exact Hi|exact Hj]. lia.
Qed.

(** ** [State.attrs] and [State.__call__] *)

Lemma State_attrs_kwargs st k :
  State.kwargs (State_attrs st).1 !! k =
    if decide (k ∈ REQUISITES) then normalized <$> State.kwargs st !! k
    else State.kwargs st !! k.
Proof.
  unfold State_attrs. cbn [fst State.kwargs State.set_kwargs].
  apply foldl_normalize_lookup, NoDup_REQUISITES.
Qed.

Lemma State_attrs_keys st :
  sorted_keys (State.kwargs (State_attrs st).1) = sorted_keys (State.kwargs st).
Proof.
  apply sorted_keys_ext. intros k. rewrite State_attrs_kwargs.
  case_decide; [|done]. by rewrite fmap_is_Some.
Qed.

Lemma State_attrs_idemp st :
  State_attrs (State_attrs st).1 = State_attrs st.
Proof.
  unfold State_attrs. cbn [fst State.kwargs State.set_kwargs].
  rewrite normalize_idemp. by destruct st.
Qed.

Lemma State_call_fst st : (State_call st).1 = (State_attrs st).1.
Proof. unfold State_call. by destruct (State_attrs st). Qed.

Lemma State_call_snd st :
  (State_call st).2 = VDict [(State_full_func st, VList (State_attrs st).2)].
Proof. unfold State_call. by destruct (State_attrs st). Qed.

Lemma State_call_idemp st : State_call (State_call st).1 = State_call st.
Proof.
  pose proof (State_attrs_idemp st) as Hid. unfold State_call.
  destruct (State_attrs st) as [st' a] eqn:E. cbn [fst] in *. rewrite Hid.
  assert (State_full_func st' = State_full_func st) as ->; [|done].
  unfold State_attrs in E. injection E as <- _. by destruct st.
Qed.

(** ** Running the registry *)

Lemma kwargs_updated_refl state w :
  kwargs_updated state (State.kwargs (heap w state)) w w.
Proof. unfold kwargs_updated. split_and!; [done..|]. by destruct (heap w state). Qed.

Lemma kwargs_updated_trans state kw1 kw2 w w1 w2 :
  kwargs_updated state kw1 w w1 → kwargs_updated state kw2 w1 w2 →
  kwargs_updated state kw2 w w2.
Proof.
  intros (Hr1 & Hn1 & Hh1 & Hs1) (Hr2 & Hn2 & Hh2 & Hs2).
  unfold kwargs_updated. split_and!; [congruence.. | |].
  - intros r Hr. by rewrite Hh2, Hh1.
  - rewrite Hs2, Hs1. by destruct (heap w state).
Qed.

Lemma set_kwarg_run state key v w :
  ∃ w', set_kwarg state key v w = (Ok (), w') ∧
    kwargs_updated state (<[key := v]> (State.kwargs (heap w state))) w w'.
Proof.
  eexists. split; [reflexivity|]. unfold kwargs_updated. cbn.
  split_and!; [done.. | |].
  - intros r Hr. by rewrite fn_lookup_insert_ne.
  - by rewrite fn_lookup_insert.
Qed.

Lemma add_requisite_ok state req w :
  appendable (State.kwargs (heap w state)) req →
  ∃ w', add_requisite state req w = (Ok (), w') ∧
    kwargs_updated state (append_edge (State.kwargs (heap w state)) req) w w'.
Proof.
  unfold appendable, append_edge, add_requisite. intros Happ. run_M.
  destruct (State.kwargs (heap w state) !! StateRequisite.requisite req)
    as [v|] eqn:Hk.
  - rewrite decide_False by done. rewrite Hk. destruct v; try done.
    apply set_kwarg_run.
  - rewrite decide_True by done.
    destruct (set_kwarg_run state (StateRequisite.requisite req) (VList []) w)
      as (w1 & -> & Hw1).
    pose proof Hw1 as (_ & _ & _ & Hs1). rewrite Hs1. cbn [State.kwargs State.set_kwargs].
    rewrite lookup_insert_eq.
    destruct (set_kwarg_run state (StateRequisite.requisite req)
                (VList ([] ++ [StateRequisite_call req])) w1) as (w2 & -> & Hw2).
    exists w2. split; [done|].
    eapply kwargs_updated_trans; [exact Hw1|].
    rewrite Hs1 in Hw2. cbn [State.kwargs State.set_kwargs] in Hw2.
    by rewrite insert_insert_eq in Hw2.
Qed.

Lemma add_requisite_fail state req w :
  ¬ appendable (State.kwargs (heap w state)) req →
  add_requisite state req w = (Raise AttributeError, w).
Proof.
  unfold appendable, add_requisite. intros Happ. run_M.
  destruct (State.kwargs (heap w state) !! StateRequisite.requisite req)
    as [v|] eqn:Hk; [|done].
  rewrite decide_False by done. rewrite Hk. by destruct v.
Qed.

(** The loop of [add] over the stack succeeds when every edge is
    appendable, and leaves the attributes extended by the edges. *)
Lemma for_each_add_requisite_ok state rs w :
  Forall (appendable (State.kwargs (heap w state))) rs →
  ∃ w', for_each rs (add_requisite state) w = (Ok (), w') ∧
    kwargs_updated state (foldl append_edge (State.kwargs (heap w state)) rs) w w'.
Proof.
  revert w. induction rs as [|req rs IH]; intros w Hall.
  - exists w. split; [done | apply kwargs_updated_refl].
  - inversion_clear Hall as [|?? Hreq Hall'].
    destruct (add_requisite_ok state req w Hreq) as (w1 & Hrun & Hw1).
    pose proof Hw1 as (_ & _ & _ & Hs1).
    destruct (IH w1) as (w2 & Hrun2 & Hw2).
    { rewrite Hs1. cbn [State.kwargs State.set_kwargs].
      eapply List.Forall_impl; [intros ?; apply appendable_append_edge | exact Hall']. }
    exists w2. split.
    + cbn [for_each]. run_M. by rewrite Hrun.
    + rewrite Hs1 in Hw2. cbn [State.kwargs State.set_kwargs] in Hw2.
      cbn [foldl]. eapply kwargs_updated_trans; done.
Qed.

(** The loop raises nothing but [AttributeError] and leaves the registry
    alone. *)
Lemma for_each_add_requisite_outcome state rs w :
  ∃ o w', for_each rs (add_requisite state) w = (o, w') ∧
    registry w' = registry w ∧ next w' = next w ∧
    (o = Ok () ∨ o = Raise AttributeError).
Proof.
  revert w. induction rs as [|req rs IH]; intros w.
  - exists (Ok ()), w. auto.
  - cbn [for_each]. run_M.
    destruct (decide (appendable (State.kwargs (heap w state)) req)) as [Happ|Happ].
    + destruct (add_requisite_ok state req w Happ) as (w1 & -> & Hr1 & Hn1 & _).
      destruct (IH w1) as (o & w2 & -> & Hr2 & Hn2 & Ho).
      exists o, w2. split_and!; [done | congruence.. | done].
    + rewrite add_requisite_fail by done. exists (Raise AttributeError), w. auto.
Qed.

Lemma add_run id_ state extend w :
  StateRegistry_add id_ state extend w =
    if od_in id_ (section_of extend (registry w))
    then (Raise (DuplicateState (duplicate_message id_)), w)
    else
      match for_each (StateRegistry.requisites (registry w)) (add_requisite state) w with
      | (Ok _, w') => set_section extend id_ state w'
      | (Raise e, w') => (Raise e, w')
      end.
Proof.
  unfold StateRegistry_add. run_M.
  destruct (od_in id_ _); [done|].
  case_bool_decide as Hlen; [done|].
  destruct (StateRegistry.requisites (registry w)); [done | simpl in Hlen; lia].
Qed.

Lemma section_of_set_section extend id_ state w :
  section_of extend (registry (set_section extend id_ state w).2) =
    od_set id_ state (section_of extend (registry w)) ∧
  section_of (negb extend) (registry (set_section extend id_ state w).2) =
    section_of (negb extend) (registry w) ∧
  StateRegistry.requisites (registry (set_section extend id_ state w).2) =
    StateRegistry.requisites (registry w) ∧
  StateRegistry.includes (registry (set_section extend id_ state w).2) =
    StateRegistry.includes (registry w).
Proof. by destruct extend. Qed.

(** A successful [add]: the edges of the stack are appended to the
    attributes of the declaration and the declaration is put last in its
    section. *)
Lemma add_ok id_ state extend w :
  od_in id_ (section_of extend (registry w)) = false →
  Forall (appendable (State.kwargs (heap w state)))
    (StateRegistry.requisites (registry w)) →
  ∃ w', StateRegistry_add id_ state extend w = (Ok (), w') ∧
    next w' = next w ∧
    (∀ r, r ≠ state → heap w' r = heap w r) ∧
    heap w' state =
      State.set_kwargs
        (foldl append_edge (State.kwargs (heap w state))
           (StateRegistry.requisites (registry w)))
        (heap w state) ∧
    section_of extend (registry w') =
      section_of extend (registry w) ++ [(id_, state)] ∧
    section_of (negb extend) (registry w') = section_of (negb extend) (registry w) ∧
    StateRegistry.requisites (registry w') = StateRegistry.requisites (registry w) ∧
    StateRegistry.includes (registry w') = StateRegistry.includes (registry w).
Proof.
  intros Hfresh Hall. rewrite add_run, Hfresh.
  destruct (for_each_add_requisite_ok state _ w Hall) as (w1 & -> & Hr & Hn & Hh & Hs).
  destruct (section_of_set_section extend id_ state w1) as (H1 & H2 & H3 & H4).
  exists (set_section extend id_ state w1).2. split; [done|].
  rewrite H1, H2, H3, H4, Hr.
  split_and!; [done | done | done | | done..].
  apply od_set_fresh. by apply od_in_false.
Qed.

(** [add] raises [DuplicateState] from its membership test only: past the
    test it returns or raises [AttributeError]. *)
Lemma add_fresh_outcome id_ state extend w :
  od_in id_ (section_of extend (registry w)) = false →
  (StateRegistry_add id_ state extend w).1 = Ok () ∨
  (StateRegistry_add id_ state extend w).1 = Raise AttributeError.
Proof.
  intros Hfresh. rewrite add_run, Hfresh.
  destruct (for_each_add_requisite_outcome state
              (StateRegistry.requisites (registry w)) w)
    as (o & w1 & -> & _ & _ & [-> | ->]); auto.
Qed.

(** ** Serialization *)

Lemma call_state_run state w :
  call_state state w =
    (Ok (State_call (heap w state)).2,
     World (<[state := (State_call (heap w state)).1]> (heap w)) (next w) (registry w)).
Proof. unfold call_state. run_M. by destruct (State_call (heap w state)). Qed.

Lemma heap_called_refl h : heap_called h h.
Proof. intros r. by left. Qed.

Lemma heap_called_trans h1 h2 h3 :
  heap_called h1 h2 → heap_called h2 h3 → heap_called h1 h3.
Proof.
  intros H12 H23 r. destruct (H23 r) as [-> | ->], (H12 r) as [-> | ->]; auto.
  right. by rewrite State_call_idemp.
Qed.

Lemma heap_called_insert h state :
  heap_called h (<[state := (State_call (h state)).1]> h).
Proof.
  intros r. destruct (decide (state = r)) as [->|Hne].
  - right. by rewrite fn_lookup_insert.
  - left. by rewrite fn_lookup_insert_ne.
Qed.

Lemma rendered_items_called h h' items :
  heap_called h h' → rendered_items h' items = rendered_items h items.
Proof.
  intros Hh. unfold rendered_items. apply list_fmap_ext. intros _ item _.
  destruct (Hh item.2) as [-> | ->]; [done|]. by rewrite State_call_idemp.
Qed.

Lemma call_states_run items w :
  ∃ w', call_states items w = (Ok (rendered_items (heap w) items), w') ∧
    registry w' = registry w ∧ next w' = next w ∧ heap_called (heap w) (heap w').
Proof.
  revert w. induction items as [|item items IH]; intros w.
  - exists w. split_and!; [done.. | apply heap_called_refl].
  - unfold call_states. cbn [mapM]. run_M. rewrite call_state_run.
    set (w1 := World _ _ _).
    destruct (IH w1) as (w2 & Hrun & Hr & Hn & Hh).
    unfold call_states in Hrun. revert Hrun. run_M. intros ->.
    assert (heap_called (heap w) (heap w1)) as Hh1 by apply heap_called_insert.
    exists w2. split_and!; [| done | done |].
    + by rewrite (rendered_items_called _ _ _ Hh1).
    + by eapply heap_called_trans.
Qed.

(** [salt_data] always returns: the mapping [rendered], with the registry
    emptied. *)
Lemma salt_data_run w :
  ∃ w', StateRegistry_salt_data w = (Ok (VDict (rendered w)), w') ∧
    registry w' = empty_registry ∧ next w' = next w ∧
    heap_called (heap w) (heap w').
Proof.
  unfold StateRegistry_salt_data, rendered, StateRegistry_empty. run_M.
  destruct (call_states_run (StateRegistry.states (registry w)) w)
    as (w1 & -> & Hr1 & Hn1 & Hh1).
  case_bool_decide as Hext.
  - destruct (call_states_run (StateRegistry.extends (registry w)) w1)
      as (w2 & -> & Hr2 & Hn2 & Hh2).
    rewrite (rendered_items_called _ _ _ Hh1).
    eexists. split; [reflexivity|]. cbn.
    split_and!; [done | congruence | by eapply heap_called_trans].
  - eexists. split; [reflexivity|]. by cbn.
Qed.

(** ** Construction of declarations *)

(** A successful [State(...)]: the new object is registered under the
    unwrapped id in the section the id selects, and ends with that id,
    the attributes extended by the scope edges, and its own [require]
    requisite. *)
Lemma State_init_ok id_ module func kwargs w :
  od_in (ident_name id_) (section_of (is_extend id_) (registry w)) = false →
  Forall (appendable kwargs) (StateRegistry.requisites (registry w)) →
  ∃ w', State_init id_ module func kwargs w = (Ok (next w), w') ∧
    next w' = S (next w) ∧
    (∀ r, r ≠ next w → heap w' r = heap w r) ∧
    heap w' (next w) =
      State.Build (Id (ident_name id_)) module func
        (foldl append_edge kwargs (StateRegistry.requisites (registry w)))
        (Some (StateRequisite.Build "require" module (Id (ident_name id_)))) ∧
    section_of (is_extend id_) (registry w') =
      section_of (is_extend id_) (registry w) ++ [(ident_name id_, next w)] ∧
    section_of (negb (is_extend id_)) (registry w') =
      section_of (negb (is_extend id_)) (registry w) ∧
    StateRegistry.requisites (registry w') = StateRegistry.requisites (registry w) ∧
    StateRegistry.includes (registry w') = StateRegistry.includes (registry w).
Proof.
  intros Hfresh Hall. unfold State_init, StateRegistry_extend. run_M.
  set (st0 := State.Build id_ module func kwargs None).
  set (w0 := World (<[next w := st0]> (heap w)) (S (next w)) (registry w)).
  assert (heap w0 (next w) = st0) as Hst0 by apply fn_lookup_insert.
  destruct (add_ok (ident_name id_) (next w) (is_extend id_) w0)
    as (w1 & Hadd & Hn & Hh & Hs & Hsec & Hsec' & Hrs & Hinc).
  { done. }
  { by rewrite Hst0. }
  rewrite Hst0 in Hs. cbn [State.kwargs State.set_kwargs st0] in Hs.
  destruct id_ as [s|e]; cbn [ident_name is_extend] in *; rewrite Hadd.
  - eexists. split; [reflexivity|]. cbn [heap next registry].
    rewrite !fn_lookup_insert, Hs, Hn.
    split_and!; [done | | done..].
    intros r Hr. rewrite fn_lookup_insert_ne, Hh by done.
    by apply fn_lookup_insert_ne.
  - eexists. split; [reflexivity|]. cbn [heap next registry].
    rewrite !fn_lookup_insert, Hs, Hn.
    split_and!; [done | | done..].
    intros r Hr. rewrite !fn_lookup_insert_ne, Hh by done.
    by apply fn_lookup_insert_ne.
Qed.

(** [State(...)] never raises [InvalidFunction]. *)
Lemma State_init_not_invalid id_ module func kwargs w msg :
  (State_init id_ module func kwargs w).1 ≠ Raise (InvalidFunction msg).
Proof.
  unfold State_init, StateRegistry_extend. run_M.
  set (w0 := World _ _ _).
  destruct id_ as [s|e].
  - rewrite add_run. destruct (od_in _ _); [done|].
    destruct (for_each_add_requisite_outcome (next w)
                (StateRegistry.requisites (registry w0)) w0)
      as (o & w1 & -> & _ & _ & [-> | ->]); done.
  - rewrite add_run. destruct (od_in _ _); [done|].
    destruct (for_each_add_requisite_outcome (next w)
                (StateRegistry.requisites (registry w0)) w0)
      as (o & w1 & -> & _ & _ & [-> | ->]); done.
Qed.

(** * The claims of the specification *)

Lemma State_attrs_snd st :
  (State_attrs st).2 =
    (λ k, VDict [(k, State.kwargs (State_attrs st).1 !!! k)])
      <$> sorted_keys (State.kwargs st).
Proof. rewrite <-State_attrs_keys. done. Qed.

Lemma elem_of_State_attrs st k x :
  VDict [(k, x)] ∈ (State_attrs st).2 ↔
  State.kwargs (State_attrs st).1 !! k = Some x.
Proof.
  rewrite State_attrs_snd, list_elem_of_fmap. split.
  - intros (k' & [= -> ->] & Hin). apply elem_of_sorted_keys in Hin as [v Hv].
    assert (is_Some (State.kwargs (State_attrs st).1 !! k')) as [v' Hv'].
    { rewrite State_attrs_kwargs, Hv. case_decide; by eexists. }
    by rewrite (lookup_total_correct _ _ _ Hv').
  - intros Hk. exists k. rewrite (lookup_total_correct _ _ _ Hk). split; [done|].
    apply elem_of_sorted_keys. rewrite State_attrs_kwargs in Hk.
    case_decide; [|by eexists].
    destruct (State.kwargs st !! k); [by eexists | done].
Qed.

(** C3.  [State.attrs] normalizes the value [v] held under a relation key
    [k] of [REQUISITES]: the entry of the result for [k] is [{k: l'}] where
    [l'] is the list [v] itself when [v] is a list, and the one-element
    list [[v]] when [v] is any other value, with every element that is a
    [StateRequisite] replaced by its mapping [{module: id_}] and every
    other element, raw mappings included, kept as it is. *)
Theorem attrs_normalizes_requisites (self : State.t) (k : string) (v : value) :
  k ∈ REQUISITES →
  State.kwargs self !! k = Some v →
  let elements := match v with VList l => l | _ => [v] end in
  let entry := VList (requisite_dict <$> elements) in
  VDict [(k, entry)] ∈ (State_attrs self).2 ∧
  (∀ x, VDict [(k, x)] ∈ (State_attrs self).2 → x = entry) ∧
  length (requisite_dict <$> elements) = length elements ∧
  (∀ r, requisite_dict (VReq r) =
          VDict [(StateRequisite.module r, ident_value (StateRequisite.id_ r))]) ∧
  (∀ d, requisite_dict (VDict d) = VDict d) ∧
  (∀ x, (∀ r, x ≠ VReq r) → requisite_dict x = x).
Proof.
  intros Hk Hv elements entry.
  assert (State.kwargs (State_attrs self).1 !! k = Some entry) as Hentry.
  { rewrite State_attrs_kwargs, decide_True, Hv by done. done. }
  split_and!.
  - by apply elem_of_State_attrs.
  - intros x Hx%elem_of_State_attrs. congruence.
  - apply length_fmap.
  - done.
  - done.
  - intros [] Hx; try done. by destruct (Hx r).
Qed.

Lemma attrs_normalizes_requisites_witness :
  VDict [("watch", VList [VDict [("service", VStr "nginx")]])]
    ∈ (State_attrs sample_attrs).2 ∧
  VDict [("require", VList [VDict [("pkg", VStr "nginx")];
                            VDict [("file", VStr "/etc/a")]])]
    ∈ (State_attrs sample_attrs).2.
Proof.
  split.
  - apply (attrs_normalizes_requisites sample_attrs "watch"
             (VReq (StateRequisite.Build "require" "service" (Id "nginx")))).
    + apply (bool_decide_unpack _). vm_compute. reflexivity.
    + vm_compute. reflexivity.
  - apply (attrs_normalizes_requisites sample_attrs "require"
             (VList [VDict [("pkg", VStr "nginx")];
                     VReq (StateRequisite.Build "require" "file" (Id "/etc/a"))])).
    + apply (bool_decide_unpack _). vm_compute. reflexivity.
    + vm_compute. reflexivity.
Defined.

(** C8.  Whatever the order in which the attributes were given,
    [State.attrs] returns one single-key mapping per attribute, and the
    keys of these mappings are in strictly ascending order. *)
Theorem attrs_sorted_by_key (items items' : list (string * value))
    (id_ : ident) (module func : string) (requisite : option StateRequisite.t) :
  NoDup items.*1 →
  items ≡ₚ items' →
  let self := State.Build id_ module func (list_to_map items) requisite in
  let self' := State.Build id_ module func (list_to_map items') requisite in
  (State_attrs self).2 = (State_attrs self').2 ∧
  length (State_attrs self).2 = length items ∧
  (∀ k v, (k, v) ∈ items →
     VDict [(k, if decide (k ∈ REQUISITES) then normalized v else v)]
       ∈ (State_attrs self).2) ∧
  (∀ e, e ∈ (State_attrs self).2 → ∃ k v', e = VDict [(k, v')] ∧ k ∈ items.*1) ∧
  (∀ i j ki vi kj vj,
     i < j →
     (State_attrs self).2 !! i = Some (VDict [(ki, vi)]) →
     (State_attrs self).2 !! j = Some (VDict [(kj, vj)]) →
     String.ltb ki kj = true).
Proof.
  intros Hnd Hperm self self'.
  assert (self' = self) as ->.
  { unfold self, self'. f_equal. symmetry. by apply list_to_map_proper. }
  assert (∀ k, is_Some (State.kwargs self !! k) ↔ k ∈ items.*1) as Hdom.
  { intros k. cbn. rewrite list_elem_of_fmap. split.
    - intros [v Hv]. apply elem_of_list_to_map in Hv; [|done]. by exists (k, v).
    - intros ([k' v] & -> & Hin). exists v. by apply elem_of_list_to_map. }
  split_and!.
  - done.
  - rewrite State_attrs_snd, length_fmap, length_sorted_keys. cbn.
    by apply map_size_list_to_map.
  - intros k v Hin. apply elem_of_State_attrs. rewrite State_attrs_kwargs.
    assert (State.kwargs self !! k = Some v) as ->
      by by apply elem_of_list_to_map.
    by case_decide.
  - intros e. rewrite State_attrs_snd, list_elem_of_fmap.
    intros (k & -> & Hin). eexists _, _. split; [done|].
    by apply Hdom, elem_of_sorted_keys.
  - intros i j ki vi kj vj Hij. rewrite State_attrs_snd, !list_lookup_fmap.
    intros Hi Hj.
    destruct (sorted_keys (State.kwargs self) !! i) as [ki'|] eqn:Hi'; [|done].
    destruct (sorted_keys (State.kwargs self) !! j) as [kj'|] eqn:Hj'; [|done].
    cbn in Hi, Hj. injection Hi as -> _. injection Hj as -> _.
    by eapply sorted_keys_ascending.
Qed.

Lemma attrs_sorted_by_key_witness :
  (State_attrs
     (State.Build (Id "/etc/foo") "file" "managed"
        (list_to_map [("owner", VStr "root"); ("mode", VStr "0644");
                      ("group", VStr "wheel")]) None)).2 =
  (State_attrs
     (State.Build (Id "/etc/foo") "file" "managed"
        (list_to_map [("mode", VStr "0644"); ("owner", VStr "root");
                      ("group", VStr "wheel")]) None)).2.
Proof.
  apply (attrs_sorted_by_key
           [("owner", VStr "root"); ("mode", VStr "0644"); ("group", VStr "wheel")]
           [("mode", VStr "0644"); ("owner", VStr "root"); ("group", VStr "wheel")]
           (Id "/etc/foo") "file" "managed" None).
  - apply (bool_decide_unpack _). vm_compute. reflexivity.
  - apply perm_swap.
Defined.

Example attrs_sorted_sample :
  (State_attrs
     (State.Build (Id "/etc/foo") "file" "managed"
        (list_to_map [("owner", VStr "root"); ("mode", VStr "0644");
                      ("group", VStr "wheel")]) None)).2 =
  [VDict [("group", VStr "wheel")]; VDict [("mode", VStr "0644")];
   VDict [("owner", VStr "root")]].
Proof. vm_compute. reflexivity. Qed.

Lemma od_get_snoc_fresh {A} (k : string) (v : A) (d : list (string * A)) :
  k ∉ d.*1 → od_get k (d ++ [(k, v)]) = Some v.
Proof. intros Hk. rewrite <-od_set_fresh by done. apply od_get_set_eq. Qed.

Lemma add_Ok_inv id_ state extend w w1 :
  StateRegistry_add id_ state extend w = (Ok (), w1) →
  od_in id_ (section_of extend (registry w)) = false ∧
  section_of extend (registry w1) =
    section_of extend (registry w) ++ [(id_, state)] ∧
  section_of (negb extend) (registry w1) = section_of (negb extend) (registry w) ∧
  StateRegistry.requisites (registry w1) = StateRegistry.requisites (registry w) ∧
  StateRegistry.includes (registry w1) = StateRegistry.includes (registry w).
Proof.
  rewrite add_run. destruct (od_in _ _) eqn:Hin; [done|].
  destruct (for_each_add_requisite_outcome state
              (StateRegistry.requisites (registry w)) w)
    as (o & w' & -> & Hr & _ & [-> | ->]); [|done].
  destruct (section_of_set_section extend id_ state w') as (H1 & H2 & H3 & H4).
  destruct (set_section extend id_ state w') as [o w''] eqn:Hset.
  cbn [snd] in *. intros [= _ <-]. rewrite H1, H2, H3, H4, Hr.
  split_and!; [done | | done..].
  apply od_set_fresh. by apply od_in_false.
Qed.

(** C4.  [salt_data] on a registry with no states, no extends and no
    includes returns the empty mapping; and every call of [salt_data]
    returns and leaves the registry with its states, extends, includes and
    requisite stack empty, that is, as [StateRegistry()] creates it. *)
Theorem salt_data_empty_and_reset :
  (∀ h n rs,
     StateRegistry_salt_data (World h n (StateRegistry.Build [] rs [] [])) =
       (Ok (VDict []), World h n empty_registry)) ∧
  (∀ w, ∃ doc w',
     StateRegistry_salt_data w = (Ok doc, w') ∧
     StateRegistry.states (registry w') = [] ∧
     StateRegistry.extends (registry w') = [] ∧
     StateRegistry.includes (registry w') = [] ∧
     StateRegistry.requisites (registry w') = [] ∧
     ∀ w0, registry w' = registry (StateRegistry_init w0).2).
Proof.
  split.
  - reflexivity.
  - intros w. destruct (salt_data_run w) as (w' & Hrun & Hreg & _).
    exists (VDict (rendered w)), w'. rewrite Hreg. by split_and!.
Qed.

(** C9.  When [add] raises [DuplicateState] the id is already in the
    section, and [add] has changed nothing: the world it leaves, registry
    sections and declaration attributes included, is the world it was
    called in. *)
Theorem add_duplicate_changes_nothing (id_ : string) (state : ref)
    (extend : bool) (w : world) (msg : string) :
  (StateRegistry_add id_ state extend w).1 = Raise (DuplicateState msg) →
  od_in id_ (section_of extend (registry w)) = true ∧
  StateRegistry_add id_ state extend w =
    (Raise (DuplicateState (duplicate_message id_)), w).
Proof.
  intros Hraise. destruct (od_in id_ (section_of extend (registry w))) eqn:Hin.
  - split; [done|]. by rewrite add_run, Hin.
  - destruct (add_fresh_outcome id_ state extend w Hin) as [Ho | Ho];
      rewrite Ho in Hraise; done.
Qed.

(** C2.  After a registration under [id_] into a section, a second
    registration under [id_] into the same section raises
    [DuplicateState] and changes nothing.  A registration under [id_] into
    the other section, where [id_] is not yet used, never raises
    [DuplicateState]; when its scope edges are appendable it succeeds and
    the id is then bound in both sections. *)
Theorem add_same_id_twice (id_ : string) (state1 state2 : ref)
    (extend : bool) (w w1 : world) :
  StateRegistry_add id_ state1 extend w = (Ok (), w1) →
  StateRegistry_add id_ state2 extend w1 =
    (Raise (DuplicateState (duplicate_message id_)), w1) ∧
  (od_in id_ (section_of (negb extend) (registry w)) = false →
   (∀ msg, (StateRegistry_add id_ state2 (negb extend) w1).1
             ≠ Raise (DuplicateState msg)) ∧
   (Forall (appendable (State.kwargs (heap w1 state2)))
      (StateRegistry.requisites (registry w1)) →
    ∃ w2, StateRegistry_add id_ state2 (negb extend) w1 = (Ok (), w2) ∧
      od_get id_ (section_of extend (registry w2)) = Some state1 ∧
      od_get id_ (section_of (negb extend) (registry w2)) = Some state2)).
Proof.
  intros (Hfresh & Hsec & Hother & Hrs & _)%add_Ok_inv. split.
  - rewrite add_run.
    assert (od_in id_ (section_of extend (registry w1)) = true) as ->; [|done].
    apply od_in_true. rewrite Hsec, fmap_app, elem_of_app. right.
    by apply list_elem_of_singleton.
  - intros Hfree.
    assert (od_in id_ (section_of (negb extend) (registry w1)) = false) as Hfree1
      by by rewrite Hother.
    split.
    + intros msg.
      destruct (add_fresh_outcome id_ state2 (negb extend) w1 Hfree1) as [-> | ->];
        done.
    + intros Hall.
      destruct (add_ok id_ state2 (negb extend) w1 Hfree1 Hall)
        as (w2 & Hadd & _ & _ & _ & Hsec2 & Hother2 & _).
      exists w2. split; [done|]. rewrite negb_involutive in Hother2.
      rewrite Hsec2, Hother2, Hsec. split.
      * apply od_get_snoc_fresh. by apply od_in_false.
      * apply od_get_snoc_fresh. by apply od_in_false.
Qed.

(** ** The rendered mapping *)

Lemma rendered_items_keys h (items : list (string * ref)) :
  (rendered_items h items).*1 = items.*1.
Proof.
  unfold rendered_items. rewrite <-list_fmap_compose. by apply list_fmap_ext.
Qed.

Lemma rendered_items_snoc h (items : list (string * ref)) k r :
  rendered_items h (items ++ [(k, r)]) =
    rendered_items h items ++ [(k, (State_call (h r)).2)].
Proof. unfold rendered_items. by rewrite fmap_app. Qed.

Lemma NoDup_rendered w : NoDup (rendered w).*1.
Proof.
  unfold rendered. repeat case_bool_decide;
    repeat apply NoDup_od_set; apply NoDup_OrderedDict.
Qed.

Lemma elem_of_rendered_keys w k :
  k ∈ (rendered w).*1 ↔
    k ∈ (StateRegistry.states (registry w)).*1 ∨
    (k = "include" ∧ StateRegistry.includes (registry w) ≠ []) ∨
    (k = "extend" ∧ StateRegistry.extends (registry w) ≠ []).
Proof.
  unfold rendered. repeat case_bool_decide;
    rewrite ?elem_of_od_set_keys, elem_of_OrderedDict_keys, rendered_items_keys;
    tauto.
Qed.

Lemma rendered_include w :
  StateRegistry.includes (registry w) ≠ [] →
  od_get "include" (rendered w) =
    Some (VList (VStr <$> StateRegistry.includes (registry w))).
Proof.
  intros Hinc. unfold rendered. rewrite (bool_decide_eq_true_2 _ Hinc).
  case_bool_decide.
  - rewrite od_get_set_ne by done. apply od_get_set_eq.
  - apply od_get_set_eq.
Qed.

Lemma rendered_extend w :
  StateRegistry.extends (registry w) ≠ [] →
  od_get "extend" (rendered w) =
    Some (VDict (OrderedDict
                   (rendered_items (heap w) (StateRegistry.extends (registry w))))).
Proof.
  intros Hext. unfold rendered. rewrite (bool_decide_eq_true_2 _ Hext).
  apply od_get_set_eq.
Qed.

Lemma od_get_Some_NoDup {A} (k : string) (v v' : A) (d : list (string * A)) :
  NoDup d.*1 → od_get k d = Some v → (k, v') ∈ d → v' = v.
Proof.
  induction d as [|[k0 v0] d IH]; csimpl; [done|].
  intros [Hnin Hnd]%list.NoDup_cons.
  destruct (decide (k = k0)) as [->|Hne].
  - intros [= ->] [[= ->] | Hin]%elem_of_cons; [done|].
    destruct Hnin. apply list_elem_of_fmap. by exists (k0, v').
  - intros Hget [[= -> ->] | Hin]%elem_of_cons; [done|]. by apply IH.
Qed.

(** C10.  [salt_data] returns one mapping with distinct keys that holds
    every id of the states section; when the includes are not empty its
    key ['include'] holds the list of includes and nothing else, and when
    the extend section is not empty its key ['extend'] holds the rendered
    extend section and nothing else, whatever declaration was registered
    under these ids. *)
Theorem salt_data_reserved_keys (w : world) :
  ∃ d w',
    StateRegistry_salt_data w = (Ok (VDict d), w') ∧
    NoDup d.*1 ∧
    (∀ id_, id_ ∈ (StateRegistry.states (registry w)).*1 → id_ ∈ d.*1) ∧
    (StateRegistry.includes (registry w) ≠ [] →
     od_get "include" d =
       Some (VList (VStr <$> StateRegistry.includes (registry w))) ∧
     ∀ v, ("include", v) ∈ d →
       v = VList (VStr <$> StateRegistry.includes (registry w))) ∧
    (StateRegistry.extends (registry w) ≠ [] →
     od_get "extend" d =
       Some (VDict (OrderedDict
                      (rendered_items (heap w)
                         (StateRegistry.extends (registry w))))) ∧
     ∀ v, ("extend", v) ∈ d →
       v = VDict (OrderedDict
                    (rendered_items (heap w)
                       (StateRegistry.extends (registry w))))).
Proof.
  destruct (salt_data_run w) as (w' & Hrun & _).
  exists (rendered w), w'. split_and!.
  - done.
  - apply NoDup_rendered.
  - intros id_ Hid. apply elem_of_rendered_keys. by left.
  - intros Hinc. pose proof (rendered_include w Hinc) as Hget.
    split; [done|]. intros v. by apply od_get_Some_NoDup; [apply NoDup_rendered|].
  - intros Hext. pose proof (rendered_extend w Hext) as Hget.
    split; [done|]. intros v. by apply od_get_Some_NoDup; [apply NoDup_rendered|].
Qed.

(** C7.  A [State] constructed with [extend(name)] as its id is
    registered last in the extend section under [name], the states section
    is left as it was, and the id of the object becomes [name];
    [salt_data] then returns it as [{full_func: attrs}] under [name] in the
    mapping of the key ['extend'].  Whenever the extend section is not
    empty, [salt_data] puts its rendering under the key ['extend'] of the
    mapping; the ids of the extend section are no keys of that mapping
    unless they are ids of the states section. *)
Theorem extend_registers_in_extend_section (name module func : string)
    (kwargs : gmap string value) (w : world) :
  (od_in name (StateRegistry.extends (registry w)) = false →
   Forall (appendable kwargs) (StateRegistry.requisites (registry w)) →
   ∃ w',
     State_init (Extend (StateRegistry_make_extend name)) module func kwargs w =
       (Ok (next w), w') ∧
     State.id_ (heap w' (next w)) = Id name ∧
     StateRegistry.extends (registry w') =
       StateRegistry.extends (registry w) ++ [(name, next w)] ∧
     StateRegistry.states (registry w') = StateRegistry.states (registry w) ∧
     ∃ d w'' e,
       StateRegistry_salt_data w' = (Ok (VDict d), w'') ∧
       od_get "extend" d = Some (VDict e) ∧
       od_get name e =
         Some (VDict [(module +:+ "." +:+ func,
                       VList (State_attrs (heap w' (next w))).2)])) ∧
  (StateRegistry.extends (registry w) ≠ [] →
   ∃ d w',
     StateRegistry_salt_data w = (Ok (VDict d), w') ∧
     od_get "extend" d =
       Some (VDict (OrderedDict
                      (rendered_items (heap w)
                         (StateRegistry.extends (registry w))))) ∧
     (∀ k, k ∈ d.*1 →
        k ∈ (StateRegistry.states (registry w)).*1 ∨ k = "include" ∨ k = "extend")).
Proof.
  split.
  - intros Hfresh Hall.
    destruct (State_init_ok (Extend (StateRegistry_make_extend name))
                module func kwargs w Hfresh Hall)
      as (w' & Hrun & _ & _ & Hst & Hsec & Hother & _).
    exists w'. cbn in Hst, Hsec, Hother. rewrite Hst at 1.
    split_and!; [done.. |].
    destruct (salt_data_run w') as (w'' & Hdata & _).
    eexists (rendered w'), w'', _. split; [done|]. split.
    + apply rendered_extend. rewrite Hsec. by destruct (StateRegistry.extends _).
    + rewrite Hsec, rendered_items_snoc, OrderedDict_snoc, od_get_set_eq.
      rewrite State_call_snd. by rewrite Hst at 1.
  - intros Hext. destruct (salt_data_run w) as (w' & Hrun & _).
    exists (rendered w), w'. split_and!; [done | by apply rendered_extend |].
    intros k Hk%elem_of_rendered_keys. tauto.
Qed.

(** [__getattr__] and the call of its closure raise [InvalidFunction]
    exactly when [func] is refused. *)
Lemma invoke_invalid_iff self func id_ kwargs w :
  (∃ msg, (invoke self func id_ kwargs w).1 = Raise (InvalidFunction msg)) ↔
  refused self func.
Proof.
  assert (∀ msg, (call_make_state (MakeState self func) id_ kwargs w).1 ≠
                   Raise (InvalidFunction msg)) as Hcall.
  { intros msg. unfold call_make_state. case_bool_decide; [done|].
    apply State_init_not_invalid. }
  unfold invoke, StateFactory_getattr, refused. run_M.
  case_bool_decide as Hlen; case_bool_decide as Hin; cbn [andb negb].
  - split; [|by intros [_ ?]]. intros [msg Hmsg]. by apply Hcall in Hmsg.
  - split; [|by eexists]. intros _. split; [|done].
    intros Hnil. rewrite Hnil in Hlen. simpl in Hlen. lia.
  - split; [|by intros [_ ?]]. intros [msg Hmsg]. by apply Hcall in Hmsg.
  - split.
    + intros [msg Hmsg]. by apply Hcall in Hmsg.
    + intros [Hne _]. destruct (StateFactory.valid_funcs self); [done|].
      simpl in Hlen. lia.
Qed.

(** A refused name raises at the lookup, before any argument is used. *)
Lemma invoke_refused self func id_ kwargs w :
  refused self func →
  invoke self func id_ kwargs w =
    (Raise (InvalidFunction (invalid_message func (StateFactory.module self))), w).
Proof.
  intros [Hne Hnin]. unfold invoke, StateFactory_getattr. run_M.
  rewrite bool_decide_eq_true_2, (bool_decide_eq_false_2 _ Hnin); [done|].
  destruct (StateFactory.valid_funcs self); [done | simpl; lia].
Qed.

(** A name that is not refused, with no attribute named as a parameter
    of [State.__init__]: the call is [State(id_, module, func, ...)]. *)
Lemma invoke_accepted self func id_ kwargs w :
  ¬ refused self func →
  (∀ k, k ∈ State_parameters → kwargs !! k = None) →
  invoke self func id_ kwargs w =
    State_init id_ (StateFactory.module self) func kwargs w.
Proof.
  intros Hacc Hkw. unfold invoke, StateFactory_getattr, call_make_state. run_M.
  assert (bool_decide (0 < length (StateFactory.valid_funcs self))
          && negb (bool_decide (func ∈ StateFactory.valid_funcs self)) = false)
    as ->.
  { case_bool_decide as Hlen; [|done].
    case_bool_decide as Hin; [done|].
    destruct Hacc. split; [|done].
    intros Hnil. rewrite Hnil in Hlen. simpl in Hlen. lia. }
  cbn. rewrite bool_decide_eq_false_2; [done|].
  intros Hex. apply list.Exists_exists in Hex as (k & Hk & Hsome).
  rewrite (Hkw k Hk) in Hsome. by destruct Hsome.
Qed.

(** An attribute named as a parameter of [State.__init__] makes the call
    of the closure raise [TypeError], and nothing is constructed. *)
Lemma invoke_parameter_clash self func id_ kwargs k w :
  ¬ refused self func →
  k ∈ State_parameters → is_Some (kwargs !! k) →
  invoke self func id_ kwargs w = (Raise TypeError, w).
Proof.
  intros Hacc Hk Hsome. unfold invoke, StateFactory_getattr, call_make_state. run_M.
  assert (bool_decide (0 < length (StateFactory.valid_funcs self))
          && negb (bool_decide (func ∈ StateFactory.valid_funcs self)) = false)
    as ->.
  { case_bool_decide as Hlen; [|done].
    case_bool_decide as Hin; [done|].
    destruct Hacc. split; [|done].
    intros Hnil. rewrite Hnil in Hlen. simpl in Hlen. lia. }
  cbn. rewrite bool_decide_eq_true_2; [done|].
  apply list.Exists_exists. by exists k.
Qed.

(** A name normal lookup does not find goes through [__getattr__]. *)
Lemma StateFactory_invoke_getattr self func id_ kwargs :
  func ∉ factory_attributes →
  StateFactory_invoke self func id_ kwargs = Some (invoke self func id_ kwargs).
Proof.
  unfold factory_attributes, StateFactory_invoke. rewrite elem_of_app.
  intros Hnot. rewrite !bool_decide_eq_false_2; [done | tauto..].
Qed.

(** C6, for the names that reach [__getattr__].  With [func] no
    attribute of the factory object, [factory.func(id_, **kwargs)]
    raises [InvalidFunction] exactly when [valid_funcs] is not empty and
    [func] is not in it, and then changes nothing; with [valid_funcs]
    empty no name is refused.  Otherwise, with no attribute named as a
    parameter of [State.__init__], the call is the construction of a
    [State] with the module of the factory and [func]: where the id is
    free and the scope edges are appendable it returns the new object,
    registered under the id. *)
Theorem invoke_checks_valid_funcs (self : StateFactory.t) (func : string)
    (id_ : ident) (kwargs : gmap string value) (w : world) :
  func ∉ factory_attributes →
  ∃ m, StateFactory_invoke self func id_ kwargs = Some m ∧
    ((∃ msg, (m w).1 = Raise (InvalidFunction msg)) ↔ refused self func) ∧
    (refused self func →
     m w =
       (Raise (InvalidFunction (invalid_message func (StateFactory.module self))), w)) ∧
    (StateFactory.valid_funcs self = [] → ¬ refused self func) ∧
    (¬ refused self func →
     (∀ k, k ∈ State_parameters → kwargs !! k = None) →
     m w = State_init id_ (StateFactory.module self) func kwargs w ∧
     (od_in (ident_name id_) (section_of (is_extend id_) (registry w)) = false →
      Forall (appendable kwargs) (StateRegistry.requisites (registry w)) →
      constructs self func id_ m w)).
Proof.
  intros Hfunc. exists (invoke self func id_ kwargs).
  split; [by apply StateFactory_invoke_getattr|].
  split; [apply invoke_invalid_iff|].
  split; [apply invoke_refused|].
  split; [by intros Hnil [Hne _]|].
  intros Hacc Hkw. split; [by apply invoke_accepted|].
  intros Hfresh Hall. unfold constructs. rewrite invoke_accepted by done.
  destruct (State_init_ok id_ (StateFactory.module self) func kwargs w Hfresh Hall)
    as (w' & Hrun & _ & _ & Hst & Hsec & _).
  exists w'. rewrite Hst, Hsec. split_and!; [done.. |].
  apply od_get_snoc_fresh. by apply od_in_false.
Qed.

(** C6, as stated for every operation name and every call, fails at the
    names normal lookup finds and at the attributes named as parameters
    of [State.__init__].  With ['file.managed'] the only function of the
    module, [File.module('/etc/foo')] is refused by the list and raises
    [TypeError], the string [self.module] is not callable, and not
    [InvalidFunction]; and [File.managed('/etc/foo', func='x')] is not
    refused and raises [TypeError] in the call of [State], constructing
    nothing. *)
Lemma invoke_checks_valid_funcs_counterexample :
  (refused File "module" ∧
   StateFactory_invoke File "module" (Id "/etc/foo") ∅ = Some (raise TypeError) ∧
   ¬ checks_valid_funcs File "module" (Id "/etc/foo") ∅ fresh_world) ∧
  (¬ refused File "managed" ∧
   StateFactory_invoke File "managed" (Id "/etc/foo") {[ "func" := VStr "x" ]} =
     Some (invoke File "managed" (Id "/etc/foo") {[ "func" := VStr "x" ]}) ∧
   invoke File "managed" (Id "/etc/foo") {[ "func" := VStr "x" ]} fresh_world =
     (Raise TypeError, fresh_world) ∧
   ¬ checks_valid_funcs File "managed" (Id "/etc/foo") {[ "func" := VStr "x" ]}
       fresh_world).
Proof.
  assert (refused File "module") as Href.
  { split; [done|]. apply (bool_decide_unpack _). vm_compute. reflexivity. }
  assert (¬ refused File "managed") as Hacc.
  { intros [_ Hnin]. apply Hnin. apply (bool_decide_unpack _). vm_compute. reflexivity. }
  assert (invoke File "managed" (Id "/etc/foo") {[ "func" := VStr "x" ]} fresh_world =
            (Raise TypeError, fresh_world)) as Hclash.
  { apply (invoke_parameter_clash _ _ _ _ "func"); [done | |].
    - apply (bool_decide_unpack _). vm_compute. reflexivity.
    - by rewrite lookup_singleton_eq. }
  split; split_and!; try done.
  - intros (m & Hm & Hiff & _). injection Hm as <-.
    apply Hiff in Href as [msg Hmsg]. discriminate Hmsg.
  - intros (m & Hm & _ & Hcons). injection Hm as <-.
    destruct (Hcons Hacc) as (w' & Hrun & _).
    rewrite Hclash in Hrun. discriminate Hrun.
Qed.

(** ** Scope edges *)

(** Where every edge of the stack is appendable, [add] succeeds and each
    relation key of the stack ends with the list the author supplied
    followed by the edges of the stack for that relation, oldest first;
    the list is created when the key was absent, and the other attributes
    are left as they were. *)
Lemma add_appends_scope_edges (id_ : string) (state : ref) (extend : bool)
    (w : world) :
  od_in id_ (section_of extend (registry w)) = false →
  Forall (appendable (State.kwargs (heap w state)))
    (StateRegistry.requisites (registry w)) →
  ∃ w', StateRegistry_add id_ state extend w = (Ok (), w') ∧
    ∀ k, State.kwargs (heap w' state) !! k =
      match edges_for k (StateRegistry.requisites (registry w)) with
      | [] => State.kwargs (heap w state) !! k
      | es => Some (VList (supplied (State.kwargs (heap w state) !! k) ++ es))
      end.
Proof.
  intros Hfresh Hall.
  destruct (add_ok id_ state extend w Hfresh Hall) as (w' & Hrun & _ & _ & Hs & _).
  exists w'. split; [done|]. intros k. rewrite Hs.
  cbn [State.kwargs State.set_kwargs]. by apply foldl_append_edge_lookup.
Qed.

(** C1, at the failing input.  Inside [with File('/etc/a')], registering
    a declaration whose [require] attribute is the single requisite
    [Pkg('nginx')] raises [AttributeError]: nothing is appended and the
    declaration is not registered.  With the same requisite wrapped in a
    list the registration succeeds and the scope edge follows it. *)
Theorem add_single_value_under_scope :
  StateRegistry_add "/etc/b" 0 false (scoped_world single_require) =
    (Raise AttributeError, scoped_world single_require) ∧
  (single_require_program fresh_world).1 = Raise AttributeError ∧
  StateRegistry.states (registry (single_require_program fresh_world).2) = [] ∧
  ∃ w', StateRegistry_add "/etc/b" 0 false (scoped_world list_require) = (Ok (), w') ∧
    State.kwargs (heap w' 0) !! "require" =
      Some (VList [VReq (StateFactory_call Pkg (Id "nginx") None);
                   VDict [("file", VStr "/etc/a")]]).
Proof.
  split_and!; [reflexivity.. |].
  eexists. split; [reflexivity|]. vm_compute. reflexivity.
Qed.

(** ** Insertion order *)

Lemma foldl_append_edge_appendable rs kw req :
  appendable kw req → appendable (foldl append_edge kw rs) req.
Proof.
  revert kw. induction rs as [|req' rs IH]; intros kw Happ; [done|].
  cbn [foldl]. by apply IH, appendable_append_edge.
Qed.

(** Registrations of distinct fresh ids succeed one after the other and
    extend the section in their order. *)
Lemma register_all_ok decls extend w :
  NoDup decls.*1 →
  (∀ id_, id_ ∈ decls.*1 → od_in id_ (section_of extend (registry w)) = false) →
  (∀ d, d ∈ decls →
     Forall (appendable (State.kwargs (heap w d.2)))
       (StateRegistry.requisites (registry w))) →
  ∃ w1, register_all decls extend w = (Ok (), w1) ∧
    section_of extend (registry w1) = section_of extend (registry w) ++ decls ∧
    section_of (negb extend) (registry w1) = section_of (negb extend) (registry w) ∧
    StateRegistry.requisites (registry w1) = StateRegistry.requisites (registry w) ∧
    StateRegistry.includes (registry w1) = StateRegistry.includes (registry w).
Proof.
  revert w. induction decls as [|[id_ state] decls IH]; intros w Hnd Hfresh Happ.
  - exists w. by rewrite (right_id_L [] (++)).
  - apply list.NoDup_cons in Hnd as [Hnin Hnd].
    destruct (add_ok id_ state extend w) as
      (w' & Hadd & _ & Hh & Hs & Hsec & Hother & Hrs & Hinc).
    { apply Hfresh. csimpl. apply elem_of_cons; by left. }
    { apply (Happ (id_, state)). apply elem_of_cons; by left. }
    destruct (IH w' Hnd) as (w1 & Hrun & Hsec1 & Hother1 & Hrs1 & Hinc1).
    { intros id' Hid'. apply od_in_false. rewrite Hsec, fmap_app, elem_of_app.
      intros [Hin | Hin%list_elem_of_singleton].
      - assert (od_in id' (section_of extend (registry w)) = false) as Hf.
        { apply Hfresh. csimpl. apply elem_of_cons; by right. }
        by apply od_in_false in Hf.
      - simpl in Hin. by subst id'. }
    { intros d Hd. rewrite Hrs.
      assert (Forall (appendable (State.kwargs (heap w d.2)))
                (StateRegistry.requisites (registry w))) as Hall.
      { apply Happ. apply elem_of_cons; by right. }
      destruct (decide (d.2 = state)) as [Heq|Hne].
      - rewrite Heq, Hs. cbn [State.kwargs State.set_kwargs].
        rewrite Heq in Hall.
        eapply List.Forall_impl; [|exact Hall].
        intros req. apply foldl_append_edge_appendable.
      - by rewrite Hh. }
    exists w1. split.
    + unfold register_all in *. cbn [for_each]. run_M. cbn [fst snd].
      by rewrite Hadd.
    + rewrite Hsec1, Hother1, Hrs1, Hinc1, Hsec, Hother, Hrs, Hinc.
      by rewrite <-(assoc_L (++)).
Qed.

Lemma rendered_items_declaration_items h decls :
  rendered_items h decls = declaration_items h decls.
Proof.
  unfold rendered_items, declaration_items. apply list_fmap_ext.
  intros _ d _. by rewrite State_call_snd.
Qed.

(** C5, amended.  Registrations of distinct ids into an empty section
    succeed, and [salt_data] lists the ids in their insertion order, each
    with [{full_func: attrs}], provided that in the states section no id
    is ['include'] while there are includes and no id is ['extend'] while
    the extend section is not empty. *)
Theorem salt_data_keeps_insertion_order (decls : list (string * ref))
    (extend : bool) (w : world) :
  registrable decls extend w →
  (extend = false →
   (StateRegistry.includes (registry w) = [] ∨ "include" ∉ decls.*1) ∧
   (StateRegistry.extends (registry w) = [] ∨ "extend" ∉ decls.*1)) →
  lists_in_order decls extend w.
Proof.
  intros (Hempty & Hnd & Happ) Hreserved.
  destruct (register_all_ok decls extend w Hnd) as
    (w1 & Hrun & Hsec & Hother & Hrs & Hinc); [|done|].
  { intros id_ _. by rewrite Hempty. }
  rewrite Hempty in Hsec. cbn [app] in Hsec.
  destruct (salt_data_run w1) as (w2 & Hdata & _).
  exists w1, (rendered w1), w2. split_and!; [done.. |].
  assert (OrderedDict (rendered_items (heap w1) decls) =
          declaration_items (heap w1) decls) as Hitems.
  { rewrite OrderedDict_NoDup by by rewrite rendered_items_keys.
    apply rendered_items_declaration_items. }
  assert ((declaration_items (heap w1) decls).*1 = decls.*1) as Hkeys.
  { by rewrite <-rendered_items_declaration_items, rendered_items_keys. }
  destruct extend; cbn [section_of negb] in *.
  - intros Hne. rewrite rendered_extend by by rewrite Hsec.
    by rewrite Hsec, Hitems.
  - destruct (Hreserved eq_refl) as [Hi He]. unfold rendered.
    rewrite Hsec, Hother, Hinc, Hitems.
    case_bool_decide as Hext'; case_bool_decide as Hinc'.
    + destruct Hi as [|Hi]; [done|]. destruct He as [|He]; [done|].
      rewrite (od_set_fresh "include") by by rewrite Hkeys.
      rewrite od_set_fresh.
      * rewrite <-(assoc_L (++)). eexists. split; [done|].
        intros k. csimpl. rewrite !elem_of_cons, elem_of_nil. tauto.
      * rewrite fmap_app, Hkeys, elem_of_app. csimpl.
        rewrite list_elem_of_singleton. by intros [|].
    + destruct He as [|He]; [done|].
      rewrite od_set_fresh by by rewrite Hkeys.
      eexists. split; [done|].
      intros k. csimpl. rewrite list_elem_of_singleton. tauto.
    + destruct Hi as [|Hi]; [done|].
      rewrite od_set_fresh by by rewrite Hkeys.
      eexists. split; [done|].
      intros k. csimpl. rewrite list_elem_of_singleton. tauto.
    + exists []. rewrite (right_id_L [] (++)). split; [done|].
      intros k. csimpl. by rewrite elem_of_nil.
Qed.

(** C5, as stated, fails at the reserved keys.  With [include('foo')]
    called, the declaration registered under the id ['include'] is not in
    the mapping, whose key ['include'] holds the list of includes; with a
    declaration in the extend section, the one registered under the id
    ['extend'] is replaced by the rendered extend section. *)
Lemma salt_data_keeps_insertion_order_counterexample :
  (registrable [("include", 0)] false include_world ∧
   ¬ lists_in_order [("include", 0)] false include_world) ∧
  (registrable [("extend", 0)] false extend_world ∧
   ¬ lists_in_order [("extend", 0)] false extend_world).
Proof.
  split; split.
  - split_and!.
    + reflexivity.
    + apply (bool_decide_unpack _). vm_compute. reflexivity.
    + intros d _. apply List.Forall_nil.
  - intros (w1 & d & w2 & Hrun & Hdata & rest & Hd & _).
    injection Hrun as <-. injection Hdata as <- _. discriminate Hd.
  - split_and!.
    + reflexivity.
    + apply (bool_decide_unpack _). vm_compute. reflexivity.
    + intros d _. apply List.Forall_nil.
  - intros (w1 & d & w2 & Hrun & Hdata & rest & Hd & _).
    injection Hrun as <-. injection Hdata as <- _. discriminate Hd.
Qed.

Example include_overwrites_declaration :
  ((register_all [("include", 0)] false;; StateRegistry_salt_data) include_world).1 =
  Ok (VDict [("include", VList [VStr "foo"])]).
Proof. vm_compute. reflexivity. Qed.

(** ** The theorems at sample inputs *)

Lemma add_duplicate_changes_nothing_witness :
  StateRegistry_add "a" 1 false taken_world =
    (Raise (DuplicateState "A state with id 'a' already exists"), taken_world).
Proof.
  apply (add_duplicate_changes_nothing "a" 1 false taken_world
           "A state with id 'a' already exists").
  reflexivity.
Defined.

Lemma add_same_id_twice_witness :
  StateRegistry_add "/etc/a" 1 false
    (StateRegistry_add "/etc/a" 0 false two_objects_world).2 =
    (Raise (DuplicateState "A state with id '/etc/a' already exists"),
     (StateRegistry_add "/etc/a" 0 false two_objects_world).2) ∧
  ∃ w2,
    StateRegistry_add "/etc/a" 1 true
      (StateRegistry_add "/etc/a" 0 false two_objects_world).2 = (Ok (), w2) ∧
    od_get "/etc/a" (StateRegistry.states (registry w2)) = Some 0 ∧
    od_get "/etc/a" (StateRegistry.extends (registry w2)) = Some 1.
Proof.
  destruct (add_same_id_twice "/etc/a" 0 1 false two_objects_world
              (StateRegistry_add "/etc/a" 0 false two_objects_world).2 eq_refl)
    as [Hsame Hother].
  split; [exact Hsame|].
  apply Hother; [reflexivity | apply List.Forall_nil].
Defined.

Lemma salt_data_reserved_keys_witness :
  ∃ d w',
    StateRegistry_salt_data reserved_world = (Ok (VDict d), w') ∧
    od_get "include" d = Some (VList [VStr "foo"]).
Proof.
  destruct (salt_data_reserved_keys reserved_world)
    as (d & w' & Hrun & _ & _ & Hinc & _).
  exists d, w'. split; [exact Hrun|]. apply Hinc. discriminate.
Defined.

Example reserved_keys_sample :
  (StateRegistry_salt_data reserved_world).1 =
  Ok (VDict [("include", VList [VStr "foo"]);
             ("extend",
              VDict [("apache", VDict [("file.managed", VList [])])])]).
Proof. vm_compute. reflexivity. Qed.

Lemma extend_registers_in_extend_section_witness :
  ∃ w',
    State_init (Extend (StateRegistry_make_extend "apache")) "service" "running"
      ∅ fresh_world = (Ok 0, w') ∧
    State.id_ (heap w' 0) = Id "apache" ∧
    StateRegistry.extends (registry w') = [("apache", 0)] ∧
    StateRegistry.states (registry w') = [] ∧
    ∃ d w'' e,
      StateRegistry_salt_data w' = (Ok (VDict d), w'') ∧
      od_get "extend" d = Some (VDict e) ∧
      od_get "apache" e =
        Some (VDict [("service.running", VList (State_attrs (heap w' 0)).2)]).
Proof.
  apply (extend_registers_in_extend_section "apache" "service" "running" ∅ fresh_world).
  - reflexivity.
  - apply List.Forall_nil.
Defined.

Example extend_sample :
  ((State_init (Extend (StateRegistry_make_extend "apache")) "service" "running"
      {[ "enable" := VBool true ]};;
    StateRegistry_salt_data) fresh_world).1 =
  Ok (VDict [("extend",
              VDict [("apache",
                      VDict [("service.running",
                              VList [VDict [("enable", VBool true)]])])])]).
Proof. vm_compute. reflexivity. Qed.

Lemma invoke_checks_valid_funcs_witness :
  ("managed" ∉ factory_attributes) ∧
  (∃ m, StateFactory_invoke File "managed" (Id "/etc/foo") ∅ = Some m ∧
     constructs File "managed" (Id "/etc/foo") m fresh_world).
Proof.
  assert ("managed" ∉ factory_attributes) as Hfunc.
  { apply (bool_decide_unpack _). vm_compute. reflexivity. }
  split; [exact Hfunc|].
  destruct (invoke_checks_valid_funcs File "managed" (Id "/etc/foo") ∅ fresh_world
              Hfunc)
    as (m & Hm & _ & _ & _ & Hcons).
  exists m. split; [exact Hm|].
  apply Hcons.
  - intros [_ Hnin]. apply Hnin. apply (bool_decide_unpack _). vm_compute. reflexivity.
  - intros k _. apply lookup_empty.
  - reflexivity.
  - apply List.Forall_nil.
Defined.

Lemma salt_data_keeps_insertion_order_witness :
  lists_in_order [("/etc/b", 1); ("/etc/a", 0)] false two_objects_world.
Proof.
  apply salt_data_keeps_insertion_order.
  - split_and!.
    + reflexivity.
    + apply (bool_decide_unpack _). vm_compute. reflexivity.
    + intros d _. apply List.Forall_nil.
  - intros _. split; left; reflexivity.
Defined.

Example render_two_declarations :
  ((register_all [("/etc/b", 1); ("/etc/a", 0)] false;;
    StateRegistry_salt_data) two_objects_world).1 =
  Ok (VDict [("/etc/b", VDict [("file.managed", VList [])]);
             ("/etc/a", VDict [("file.managed", VList [VDict [("owner", VStr "root")]])])]).
Proof. vm_compute. reflexivity. Qed.

(** * Further properties of the registry *)

(** ** What [add] touches *)

Lemma for_each_add_requisite_frame state rs w :
  ∃ o w', for_each rs (add_requisite state) w = (o, w') ∧
    registry w' = registry w ∧ next w' = next w ∧
    (∀ r, r ≠ state → heap w' r = heap w r) ∧
    (o = Ok () ∨ o = Raise AttributeError).
Proof.
  revert w. induction rs as [|req rs IH]; intros w.
  - exists (Ok ()), w. split_and!; auto.
  - cbn [for_each]. run_M.
    destruct (decide (appendable (State.kwargs (heap w state)) req)) as [Happ|Happ].
    + destruct (add_requisite_ok state req w Happ) as (w1 & -> & Hr1 & Hn1 & Hh1 & _).
      destruct (IH w1) as (o & w2 & -> & Hr2 & Hn2 & Hh2 & Ho).
      exists o, w2. split_and!; [done | congruence.. | | done].
      intros r Hr. by rewrite Hh2, Hh1.
    + rewrite add_requisite_fail by done.
      exists (Raise AttributeError), w. split_and!; auto.
Qed.

Lemma for_each_app {A} (l1 l2 : list A) (body : A → M unit) w :
  for_each (l1 ++ l2) body w =
    match for_each l1 body w with
    | (Ok _, w') => for_each l2 body w'
    | (Raise e, w') => (Raise e, w')
    end.
Proof.
  revert w. induction l1 as [|x l1 IH]; intros w; [done|].
  cbn [app for_each]. run_M. destruct (body x w) as [[[]|e] w1]; [apply IH | done].
Qed.

Lemma appendable_append_edge_inv kw req req' :
  appendable (append_edge kw req) req' → appendable kw req'.
Proof.
  unfold appendable, append_edge.
  destruct (decide (StateRequisite.requisite req' = StateRequisite.requisite req))
    as [->|Hne].
  - destruct (kw !! StateRequisite.requisite req) as [[]|] eqn:Hk;
      rewrite ?Hk, ?lookup_insert_eq; done.
  - destruct (kw !! StateRequisite.requisite req) as [[]|];
      rewrite ?lookup_insert_ne by done; done.
Qed.

Lemma foldl_append_edge_appendable_inv rs kw req :
  appendable (foldl append_edge kw rs) req → appendable kw req.
Proof.
  revert kw. induction rs as [|req' rs IH]; intros kw Happ; [done|].
  cbn [foldl] in Happ. by eapply appendable_append_edge_inv, IH.
Qed.

Lemma add_frame (id_ : string) (state : ref)
    (extend : bool) (w : world) :
  let w' := (StateRegistry_add id_ state extend w).2 in
  StateRegistry.requisites (registry w') = StateRegistry.requisites (registry w) ∧
  StateRegistry.includes (registry w') = StateRegistry.includes (registry w) ∧
  section_of (negb extend) (registry w') = section_of (negb extend) (registry w) ∧
  next w' = next w ∧
  (∀ r, r ≠ state → heap w' r = heap w r) ∧
  (section_of extend (registry w') = section_of extend (registry w) ∨
   (od_in id_ (section_of extend (registry w)) = false ∧
    section_of extend (registry w') =
      section_of extend (registry w) ++ [(id_, state)])).
Proof.
  cbn zeta. rewrite add_run.
  destruct (od_in id_ (section_of extend (registry w))) eqn:Hin.
  { cbn [snd]. split_and!; auto. }
  destruct (for_each_add_requisite_frame state
              (StateRegistry.requisites (registry w)) w)
    as (o & w1 & -> & Hr & Hn & Hh & [-> | ->]).
  - destruct (section_of_set_section extend id_ state w1) as (H1 & H2 & H3 & H4).
    rewrite H1, H2, H3, H4, Hr.
    assert (next (set_section extend id_ state w1).2 = next w1 ∧
            heap (set_section extend id_ state w1).2 = heap w1) as [Hn' Hh']
      by by destruct extend.
    rewrite Hn', Hh'. split_and!; [done.. |].
    right. split; [done|]. apply od_set_fresh. by apply od_in_false.
  - cbn [snd]. rewrite Hr. split_and!; auto.
Qed.

(** X1.  Whatever its outcome, [add] leaves the scope stack, the
    includes and the other section as they were and constructs no
    declaration; its own section is unchanged or has the offered
    declaration as new last entry under an id that was free. *)
Theorem add_touches_only_its_target (id_ : string) (state : ref)
    (extend : bool) (w : world) :
  let w' := (StateRegistry_add id_ state extend w).2 in
  StateRegistry.requisites (registry w') = StateRegistry.requisites (registry w) ∧
  StateRegistry.includes (registry w') = StateRegistry.includes (registry w) ∧
  section_of (negb extend) (registry w') = section_of (negb extend) (registry w) ∧
  next w' = next w ∧
  (section_of extend (registry w') = section_of extend (registry w) ∨
   (od_in id_ (section_of extend (registry w)) = false ∧
    section_of extend (registry w') =
      section_of extend (registry w) ++ [(id_, state)])).
Proof.
  intros w'.
  destruct (add_frame id_ state extend w) as (Hrs & Hinc & Hother & Hn & _ & Hsec).
  by split_and!.
Qed.

(** The attributes after the edges of [rs] are appended: a relation key
    of [rs] holds the elements the author supplied followed by the edges
    of [rs] for that relation, in the order of [rs]; an attribute that is
    no relation key of [rs] and holds no list is as it was. *)
Lemma foldl_append_edge_edges rs kw :
  Forall (appendable kw) rs →
  (∀ k, edges_for k rs ≠ [] →
     foldl append_edge kw rs !! k =
       Some (VList (supplied (kw !! k) ++ edges_for k rs))) ∧
  (∀ k, edges_for k rs = [] → scalar (kw !! k) →
     foldl append_edge kw rs !! k = kw !! k).
Proof.
  intros Hall.
  split; intros k; rewrite foldl_append_edge_lookup by done;
    by destruct (edges_for k rs).
Qed.

(** X2.  When the edge of a requisite of the stack cannot be appended,
    [add] raises [AttributeError] without registering the declaration, but
    the edges of the requisites before it in the stack stay appended to
    the attributes of the declaration: with at most one of their relation
    keys supplied by the author, each relation key ends with the supplied
    elements followed by those edges, and the attributes that hold no
    list and are no such key are as before. *)
Theorem add_attribute_error_keeps_earlier_edges (id_ : string) (state : ref)
    (extend : bool) (w : world) (before after : list StateRequisite.t)
    (req : StateRequisite.t) :
  od_in id_ (section_of extend (registry w)) = false →
  StateRegistry.requisites (registry w) = before ++ req :: after →
  Forall (appendable (State.kwargs (heap w state))) before →
  one_supplied (State.kwargs (heap w state)) before →
  ¬ appendable (State.kwargs (heap w state)) req →
  ∃ w', StateRegistry_add id_ state extend w = (Raise AttributeError, w') ∧
    registry w' = registry w ∧
    (∀ k, edges_for k before ≠ [] →
       State.kwargs (heap w' state) !! k =
         Some (VList (supplied (State.kwargs (heap w state) !! k) ++
                      edges_for k before))) ∧
    (∀ k, edges_for k before = [] → scalar (State.kwargs (heap w state) !! k) →
       State.kwargs (heap w' state) !! k = State.kwargs (heap w state) !! k).
Proof.
  intros Hfresh Hrs Hbefore _ Hreq. rewrite add_run, Hfresh, Hrs, for_each_app.
  destruct (for_each_add_requisite_ok state before w Hbefore)
    as (w1 & -> & Hr & Hn & Hh & Hs).
  cbn [for_each]. run_M. rewrite add_requisite_fail.
  - exists w1. split; [done|]. split; [done|]. rewrite Hs.
    cbn [State.kwargs State.set_kwargs]. by apply foldl_append_edge_edges.
  - rewrite Hs. cbn [State.kwargs State.set_kwargs].
    intros Happ. by apply Hreq, (foldl_append_edge_appendable_inv before).
Qed.

(** ** The scope stack *)

Lemma push_requisite_run req w :
  StateRegistry_push_requisite req w =
    (Ok (),
     World (heap w) (next w)
       (StateRegistry.Build (StateRegistry.states (registry w))
          (StateRegistry.requisites (registry w) ++ [req])
          (StateRegistry.includes (registry w))
          (StateRegistry.extends (registry w)))).
Proof. done. Qed.

Lemma pop_requisite_last rs req w :
  StateRegistry.requisites (registry w) = rs ++ [req] →
  StateRegistry_pop_requisite w =
    (Ok (),
     World (heap w) (next w)
       (StateRegistry.Build (StateRegistry.states (registry w)) rs
          (StateRegistry.includes (registry w))
          (StateRegistry.extends (registry w)))).
Proof.
  intros Hrs. unfold StateRegistry_pop_requisite. run_M. rewrite Hrs.
  rewrite <-(removelast_last rs req) at 2.
  by destruct (rs ++ [req]) eqn:Heq; [destruct rs|].
Qed.

(** X3.  [pop_requisite] undoes [push_requisite]: pushing a requisite and
    popping it leaves the world as it was, so scopes nest as a stack. *)
Theorem push_then_pop_restores (req : StateRequisite.t) (w : world) :
  (StateRegistry_push_requisite req;; StateRegistry_pop_requisite) w = (Ok (), w).
Proof.
  run_M. rewrite push_requisite_run.
  erewrite pop_requisite_last by done. by destruct w as [h n []].
Qed.

(** X4.  [pop_requisite] raises [IndexError] exactly when the stack is
    empty, and then changes nothing; on a stack that is not empty it
    removes the requisite pushed last and nothing else. *)
Theorem pop_requisite_on_stack (w : world) :
  (StateRegistry.requisites (registry w) = [] →
   StateRegistry_pop_requisite w = (Raise IndexError, w)) ∧
  (∀ rs req,
     StateRegistry.requisites (registry w) = rs ++ [req] →
     ∃ w', StateRegistry_pop_requisite w = (Ok (), w') ∧
       StateRegistry.requisites (registry w') = rs ∧
       StateRegistry.states (registry w') = StateRegistry.states (registry w) ∧
       StateRegistry.extends (registry w') = StateRegistry.extends (registry w) ∧
       StateRegistry.includes (registry w') = StateRegistry.includes (registry w) ∧
       heap w' = heap w) ∧
  ((StateRegistry_pop_requisite w).1 = Raise IndexError →
   StateRegistry.requisites (registry w) = []).
Proof.
  split_and!.
  - intros Hrs. unfold StateRegistry_pop_requisite. run_M. by rewrite Hrs.
  - intros rs req Hrs. rewrite (pop_requisite_last rs req) by done.
    eexists. split; [done|]. by cbn.
  - unfold StateRegistry_pop_requisite. run_M.
    by destruct (StateRegistry.requisites (registry w)).
Qed.

Lemma pop_requisite_on_stack_witness :
  StateRegistry_pop_requisite fresh_world = (Raise IndexError, fresh_world) ∧
  ∃ w', StateRegistry_pop_requisite (scoped_world single_require) = (Ok (), w') ∧
    StateRegistry.requisites (registry w') = [].
Proof.
  split.
  - apply (pop_requisite_on_stack fresh_world). reflexivity.
  - destruct (proj1 (proj2 (pop_requisite_on_stack (scoped_world single_require)))
                [] (StateFactory_call File (Id "/etc/a") None) eq_refl)
      as (w' & Hrun & Hrs & _).
    by exists w'.
Defined.

(** X5.  A block [with req: body] whose body leaves the scope stack as it
    found it ends with the stack it started with, whether the body
    returned or raised, and its outcome is the outcome of the body run
    with [req] pushed. *)
Theorem with_requisite_restores_stack {A} (req : StateRequisite.t)
    (body : M A) (w : world) :
  StateRegistry.requisites (registry (body (StateRequisite_enter req w).2).2) =
    StateRegistry.requisites (registry (StateRequisite_enter req w).2) →
  (with_requisite req body w).1 = (body (StateRequisite_enter req w).2).1 ∧
  StateRegistry.requisites (registry (with_requisite req body w).2) =
    StateRegistry.requisites (registry w) ∧
  StateRegistry.states (registry (with_requisite req body w).2) =
    StateRegistry.states (registry (body (StateRequisite_enter req w).2).2) ∧
  StateRegistry.extends (registry (with_requisite req body w).2) =
    StateRegistry.extends (registry (body (StateRequisite_enter req w).2).2) ∧
  StateRegistry.includes (registry (with_requisite req body w).2) =
    StateRegistry.includes (registry (body (StateRequisite_enter req w).2).2) ∧
  heap (with_requisite req body w).2 = heap (body (StateRequisite_enter req w).2).2.
Proof.
  unfold with_requisite, with_block, StateRequisite_enter, StateRequisite_exit.
  rewrite push_requisite_run. cbn [snd registry StateRegistry.requisites].
  set (w1 := World _ _ _). intros Hbody.
  destruct (body w1) as [[a|e] w2]; cbn [fst snd] in *;
    rewrite (pop_requisite_last _ _ _ Hbody); by cbn.
Qed.

Lemma with_requisite_restores_stack_witness :
  (with_requisite watch_scope (invoke File "bogus" (Id "/etc/b") ∅) fresh_world).1 =
    Raise (InvalidFunction
             "The function 'bogus' does not exist in the StateFactory for 'file'") ∧
  StateRegistry.requisites
    (registry (with_requisite watch_scope
                 (invoke File "bogus" (Id "/etc/b") ∅) fresh_world).2) = [].
Proof.
  destruct (with_requisite_restores_stack watch_scope
              (invoke File "bogus" (Id "/etc/b") ∅) fresh_world eq_refl)
    as (Hout & Hstack & _).
  split; [exact Hout | exact Hstack].
Defined.

Lemma edges_for_snoc k rs req :
  edges_for k (rs ++ [req]) =
    edges_for k rs ++
      (if decide (StateRequisite.requisite req = k)
       then [StateRequisite_call req] else []).
Proof.
  unfold edges_for. rewrite list.filter_app, fmap_app. f_equal.
  rewrite filter_cons, filter_nil. by case_decide.
Qed.

(** X6.  A declaration constructed in the block
    [with factory(target, relation):], with its id free, the relation
    keys of the scopes absent from its attributes or holding lists, and
    at most one of them supplied by the author, is registered, and its
    list under the relation key holds the supplied elements, then the
    edges of the enclosing scopes for that relation, then
    [{module of the factory: target}]; the relation is ['require'] when
    none is given.  After the block the scope stack is as before. *)
Theorem declaration_in_scope_gets_edge (factory : StateFactory.t)
    (target : ident) (relation : option string) (id_ : ident)
    (module func : string) (kwargs : gmap string value) (w : world) :
  let req := StateFactory_call factory target relation in
  let k := default "require" relation in
  od_in (ident_name id_) (section_of (is_extend id_) (registry w)) = false →
  Forall (appendable kwargs) (StateRegistry.requisites (registry w) ++ [req]) →
  one_supplied kwargs (StateRegistry.requisites (registry w) ++ [req]) →
  ∃ w',
    with_requisite req (State_init id_ module func kwargs) w = (Ok (next w), w') ∧
    StateRegistry.requisites (registry w') = StateRegistry.requisites (registry w) ∧
    od_get (ident_name id_) (section_of (is_extend id_) (registry w')) =
      Some (next w) ∧
    State.kwargs (heap w' (next w)) !! k =
      Some (VList (supplied (kwargs !! k) ++
                   edges_for k (StateRegistry.requisites (registry w)) ++
                   [VDict [(StateFactory.module factory, ident_value target)]])).
Proof.
  intros req k Hfresh Hall _.
  unfold with_requisite, with_block, StateRequisite_enter, StateRequisite_exit.
  rewrite push_requisite_run. set (w1 := World _ _ _).
  destruct (State_init_ok id_ module func kwargs w1)
    as (w2 & -> & _ & _ & Hst & Hsec & _ & Hrs & _).
  { by destruct id_. }
  { done. }
  cbn [registry StateRegistry.requisites w1 next] in *.
  rewrite (pop_requisite_last _ _ _ Hrs).
  eexists. split; [reflexivity|]. cbn [registry heap StateRegistry.requisites].
  split_and!.
  - done.
  - assert (section_of (is_extend id_) (registry w2) =
            section_of (is_extend id_) (registry w) ++ [(ident_name id_, next w)])
      as Hsec' by (rewrite Hsec; by destruct id_).
    destruct id_; cbn [is_extend section_of StateRegistry.states
                        StateRegistry.extends] in *;
      rewrite Hsec'; apply od_get_snoc_fresh; by apply od_in_false.
  - rewrite Hst. cbn [State.kwargs].
    rewrite foldl_append_edge_lookup, edges_for_snoc by done.
    rewrite decide_True by done.
    by destruct (edges_for k (StateRegistry.requisites (registry w))).
Qed.

Lemma declaration_in_scope_gets_edge_witness :
  ∃ w',
    with_requisite watch_scope
      (State_init (Id "/etc/b") "file" "managed"
         {[ "watch" := VList [VDict [("pkg", VStr "nginx")]] ]}) fresh_world =
      (Ok 0, w') ∧
    StateRegistry.requisites (registry w') = [] ∧
    od_get "/etc/b" (StateRegistry.states (registry w')) = Some 0 ∧
    State.kwargs (heap w' 0) !! "watch" =
      Some (VList [VDict [("pkg", VStr "nginx")]; VDict [("file", VStr "/etc/a")]]).
Proof.
  destruct (declaration_in_scope_gets_edge File (Id "/etc/a") (Some "watch")
              (Id "/etc/b") "file" "managed"
              {[ "watch" := VList [VDict [("pkg", VStr "nginx")]] ]} fresh_world)
    as (w' & Hrun & Hstack & Hreg & Hedge).
  - reflexivity.
  - apply List.Forall_cons; [|apply List.Forall_nil]. vm_compute. exact I.
  - intros r r' Hr Hr' _ _.
    apply list_elem_of_singleton in Hr, Hr'. by rewrite Hr, Hr'.
  - exists w'. split_and!; [exact Hrun | exact Hstack | exact Hreg |].
    etrans; [exact Hedge|]. vm_compute. reflexivity.
Defined.

Lemma State_enter_run state req w :
  State.requisite (heap w state) = Some req →
  State_enter state w = StateRegistry_push_requisite req w.
Proof. intros Hreq. unfold State_enter. run_M. by rewrite Hreq. Qed.

(** X7.  A constructed [State] is a scope guard for itself: a declaration
    constructed in the block [with a:], where [a] is a declaration just
    constructed for module [module_a] under the id [id_a], gets
    [{module_a: name}] as last element of its ['require'] list, after
    the elements the author supplied and the ['require'] edges of the
    enclosing scopes, [name] being the unwrapped id of [a]; after the
    block the scope stack is as before.  The relation keys of the
    enclosing scopes are absent from the attributes of [a], and at most
    one relation key of the scopes is supplied in those of the
    declaration. *)
Theorem declaration_in_state_scope_requires_it (id_a id_b : ident)
    (module_a func_a module_b func_b : string)
    (kwargs_a kwargs_b : gmap string value) (w : world) :
  od_in (ident_name id_a) (section_of (is_extend id_a) (registry w)) = false →
  od_in (ident_name id_b) (section_of (is_extend id_b) (registry w)) = false →
  (is_extend id_a = is_extend id_b → ident_name id_a ≠ ident_name id_b) →
  Forall (λ r, kwargs_a !! StateRequisite.requisite r = None)
    (StateRegistry.requisites (registry w)) →
  Forall (appendable kwargs_b)
    (StateRegistry.requisites (registry w) ++
       [StateRequisite.Build "require" module_a (Id (ident_name id_a))]) →
  one_supplied kwargs_b
    (StateRegistry.requisites (registry w) ++
       [StateRequisite.Build "require" module_a (Id (ident_name id_a))]) →
  ∃ w',
    (State_init id_a module_a func_a kwargs_a ≫= λ a,
       with_state a (State_init id_b module_b func_b kwargs_b)) w =
      (Ok (S (next w)), w') ∧
    StateRegistry.requisites (registry w') = StateRegistry.requisites (registry w) ∧
    State.kwargs (heap w' (S (next w))) !! "require" =
      Some (VList (supplied (kwargs_b !! "require") ++
                   edges_for "require" (StateRegistry.requisites (registry w)) ++
                   [VDict [(module_a, VStr (ident_name id_a))]])).
Proof.
  intros Hfresh_a Hfresh_b Hdistinct Habsent_a Hall_b _.
  assert (Forall (appendable kwargs_a) (StateRegistry.requisites (registry w)))
    as Hall_a.
  { eapply List.Forall_impl; [|exact Habsent_a].
    intros r Hr. unfold appendable. by rewrite Hr. }
  run_M.
  destruct (State_init_ok id_a module_a func_a kwargs_a w Hfresh_a Hall_a)
    as (w1 & -> & Hn1 & _ & Hst1 & Hsec1 & Hother1 & Hrs1 & _).
  unfold with_state, with_block.
  rewrite (State_enter_run (next w)
             (StateRequisite.Build "require" module_a (Id (ident_name id_a))))
    by by rewrite Hst1.
  rewrite push_requisite_run. set (w2 := World _ _ _).
  destruct (State_init_ok id_b module_b func_b kwargs_b w2)
    as (w3 & -> & _ & _ & Hst3 & _ & _ & Hrs3 & _).
  { apply od_in_false. change (registry w2) with
      (StateRegistry.Build (StateRegistry.states (registry w1))
         (StateRegistry.requisites (registry w1) ++
            [StateRequisite.Build "require" module_a (Id (ident_name id_a))])
         (StateRegistry.includes (registry w1))
         (StateRegistry.extends (registry w1))).
    assert (section_of (is_extend id_b) (registry w1) =
              section_of (is_extend id_b) (registry w) ∨
            (is_extend id_a = is_extend id_b ∧
             section_of (is_extend id_b) (registry w1) =
               section_of (is_extend id_b) (registry w) ++
                 [(ident_name id_a, next w)])) as Hsec_b.
    { destruct (decide (is_extend id_a = is_extend id_b)) as [Heq|Hne].
      - right. split; [done|]. by rewrite <-Heq.
      - left. destruct id_a, id_b; cbn [is_extend negb] in *;
          first [by destruct Hne | exact Hother1]. }
    apply od_in_false in Hfresh_b.
    assert (ident_name id_b ∉ (section_of (is_extend id_b) (registry w1)).*1).
    { destruct Hsec_b as [-> | [Heq ->]]; [done|].
      rewrite fmap_app, elem_of_app. intros [?|Hin%list_elem_of_singleton]; [done|].
      by apply (Hdistinct Heq). }
    by destruct (is_extend id_b). }
  { cbn. by rewrite Hrs1. }
  cbn [registry StateRegistry.requisites w2 next] in *.
  rewrite Hrs1 in Hrs3. unfold State_exit. rewrite (pop_requisite_last _ _ _ Hrs3).
  rewrite Hn1. eexists. split; [reflexivity|].
  cbn [registry heap StateRegistry.requisites]. split; [done|].
  rewrite Hn1 in Hst3. rewrite Hst3. cbn [State.kwargs].
  rewrite Hrs1, foldl_append_edge_lookup, edges_for_snoc by done.
  rewrite decide_True by done.
  by destruct (edges_for "require" (StateRegistry.requisites (registry w))).
Qed.

Lemma declaration_in_state_scope_requires_it_witness :
  ∃ w',
    (State_init (Extend (StateRegistry_make_extend "/etc/a")) "file" "managed" ∅ ≫=
       λ a, with_state a (State_init (Id "/etc/b") "file" "managed" ∅))
      fresh_world = (Ok 1, w') ∧
    StateRegistry.requisites (registry w') = [] ∧
    State.kwargs (heap w' 1) !! "require" =
      Some (VList [VDict [("file", VStr "/etc/a")]]).
Proof.
  destruct (declaration_in_state_scope_requires_it
              (Extend (StateRegistry_make_extend "/etc/a")) (Id "/etc/b")
              "file" "managed" "file" "managed" ∅ ∅ fresh_world)
    as (w' & Hrun & Hstack & Hedge).
  - reflexivity.
  - reflexivity.
  - discriminate.
  - apply List.Forall_nil.
  - apply List.Forall_cons; [|apply List.Forall_nil]. vm_compute. exact I.
  - intros r r' Hr Hr' _ _.
    apply list_elem_of_singleton in Hr, Hr'. by rewrite Hr, Hr'.
  - exists w'. split_and!; [exact Hrun | exact Hstack |].
    etrans; [exact Hedge|]. vm_compute. reflexivity.
Defined.

(** ** Includes *)

(** X8.  [include] appends its arguments to the includes in call order
    and touches nothing else: two calls amount to one call with the
    arguments of both.  When the includes are then not empty, [salt_data]
    returns them, in that order, under the key ['include']. *)
Theorem include_accumulates (args1 args2 : list string) (w : world) :
  (StateRegistry_include args1;; StateRegistry_include args2) w =
    StateRegistry_include (args1 ++ args2) w ∧
  (∃ w', StateRegistry_include args1 w = (Ok (), w') ∧
     StateRegistry.includes (registry w') =
       StateRegistry.includes (registry w) ++ args1 ∧
     StateRegistry.states (registry w') = StateRegistry.states (registry w) ∧
     StateRegistry.extends (registry w') = StateRegistry.extends (registry w) ∧
     StateRegistry.requisites (registry w') = StateRegistry.requisites (registry w) ∧
     heap w' = heap w ∧
     (StateRegistry.includes (registry w) ++ args1 ≠ [] →
      ∃ d w'', StateRegistry_salt_data w' = (Ok (VDict d), w'') ∧
        od_get "include" d =
          Some (VList (VStr <$> StateRegistry.includes (registry w) ++ args1)))).
Proof.
  split.
  - unfold StateRegistry_include. run_M. cbn. by rewrite (assoc_L (++)).
  - eexists. split; [reflexivity|]. cbn. split_and!; [done.. |].
    intros Hne. set (w' := World _ _ _).
    destruct (salt_data_run w') as (w'' & Hrun & _).
    exists (rendered w'), w''. split; [done|]. by apply rendered_include.
Qed.

Lemma include_accumulates_witness :
  ∃ d w'',
    StateRegistry_salt_data
      ((StateRegistry_include ["common"];; StateRegistry_include ["web"; "db"])
         fresh_world).2 = (Ok (VDict d), w'') ∧
    od_get "include" d = Some (VList [VStr "common"; VStr "web"; VStr "db"]).
Proof.
  destruct (include_accumulates ["common"; "web"; "db"] [] fresh_world)
    as (_ & w' & Hrun & _ & _ & _ & _ & _ & Hdata).
  destruct (Hdata ltac:(discriminate)) as (d & w'' & Hsalt & Hget).
  injection Hrun as <-. exists d, w''. split; [exact Hsalt | exact Hget].
Defined.

(** ** Construction that fails, and rendering again *)

Lemma State_init_registry id_ module func kwargs w :
  registry (State_init id_ module func kwargs w).2 =
    registry
      (StateRegistry_add (ident_name id_) (next w) (is_extend id_)
         (alloc (State.Build id_ module func kwargs None) w).2).2 ∧
  ((State_init id_ module func kwargs w).1 =
     match (StateRegistry_add (ident_name id_) (next w) (is_extend id_)
              (alloc (State.Build id_ module func kwargs None) w).2).1 with
     | Ok _ => Ok (next w)
     | Raise e => Raise e
     end).
Proof.
  unfold State_init, StateRegistry_extend. run_M. cbn [snd].
  set (w0 := World _ _ _).
  destruct id_ as [s|e]; cbn [ident_name is_extend];
    by destruct (StateRegistry_add _ (next w) _ w0) as [[[]|?] w1].
Qed.

Lemma for_each_add_requisite_fail state rs w :
  ¬ Forall (appendable (State.kwargs (heap w state))) rs →
  (for_each rs (add_requisite state) w).1 = Raise AttributeError.
Proof.
  revert w. induction rs as [|req rs IH]; intros w Hall.
  - destruct Hall. apply List.Forall_nil.
  - cbn [for_each]. run_M.
    destruct (decide (appendable (State.kwargs (heap w state)) req)) as [Happ|Happ].
    + destruct (add_requisite_ok state req w Happ) as (w1 & -> & _ & _ & _ & Hs).
      apply IH. rewrite Hs. cbn [State.kwargs State.set_kwargs]. intros Hall'.
      apply Hall, List.Forall_cons; [done|].
      eapply List.Forall_impl; [|exact Hall'].
      intros req'. apply appendable_append_edge_inv.
    + by rewrite add_requisite_fail.
Qed.

(** X9.  The outcome of a construction [State(...)] is decided by the
    id and the scope edges.  It raises [DuplicateState], with the message
    that names the unwrapped id, exactly when the id is taken in its
    section; it raises [AttributeError] exactly when the id is free and
    the edge of some scope cannot be appended; it returns the new object
    exactly when the id is free and every edge can be appended.  A
    construction that raises has registered nothing: both sections, the
    includes and the scope stack are as before. *)
Theorem State_init_raises_exactly (id_ : ident)
    (module func : string) (kwargs : gmap string value) (w : world) :
  let taken :=
    od_in (ident_name id_) (section_of (is_extend id_) (registry w)) = true in
  let fits := Forall (appendable kwargs) (StateRegistry.requisites (registry w)) in
  let run := State_init id_ module func kwargs w in
  (run.1 = Raise (DuplicateState (duplicate_message (ident_name id_))) ↔ taken) ∧
  (run.1 = Raise AttributeError ↔ ¬ taken ∧ ¬ fits) ∧
  (run.1 = Ok (next w) ↔ ¬ taken ∧ fits) ∧
  (∀ e, run.1 = Raise e → registry run.2 = registry w).
Proof.
  intros taken fits run. unfold taken, fits, run. clear taken fits run.
  destruct (State_init_registry id_ module func kwargs w) as [-> ->].
  set (w0 := (alloc _ w).2).
  assert (registry w0 = registry w) as Hreg0 by done.
  assert (State.kwargs (heap w0 (next w)) = kwargs) as Hkw0.
  { unfold w0, alloc. cbn. by rewrite fn_lookup_insert. }
  destruct (od_in (ident_name id_) (section_of (is_extend id_) (registry w)))
    eqn:Hin.
  - rewrite add_run, Hreg0, Hin. cbn [fst snd].
    split_and!; [done | | | done].
    + split; [done | by intros [[] _]].
    + split; [done | by intros [[] _]].
  - destruct (decide (Forall (appendable kwargs)
                        (StateRegistry.requisites (registry w)))) as [Hall|Hall].
    + destruct (add_ok (ident_name id_) (next w) (is_extend id_) w0)
        as (w1 & -> & _); [by rewrite Hreg0 | by rewrite Hkw0, Hreg0 |].
      cbn [fst snd]. split_and!; [done | | | done].
      * split; [done | by intros [_ []]].
      * split; [|done]. intros _. split; [discriminate | done].
    + rewrite add_run, Hreg0, Hin.
      destruct (for_each_add_requisite_frame (next w)
                  (StateRegistry.requisites (registry w)) w0)
        as (o & w1 & Hrun & Hr & _ & _ & [-> | ->]); rewrite Hrun; cbn [fst snd].
      * pose proof (for_each_add_requisite_fail (next w)
                      (StateRegistry.requisites (registry w)) w0) as Hfail.
        rewrite Hkw0, Hrun in Hfail. by specialize (Hfail Hall).
      * split_and!; [done | | | intros; congruence].
        -- split; [|done]. intros _. split; [discriminate | done].
        -- split; [done | by intros [_ ?]].
Qed.

Lemma State_init_raises_exactly_witness :
  (State_init (Id "a") "file" "managed" ∅ taken_world).1 =
    Raise (DuplicateState "A state with id 'a' already exists") ∧
  registry (State_init (Id "a") "file" "managed" ∅ taken_world).2 =
    registry taken_world.
Proof.
  destruct (State_init_raises_exactly (Id "a") "file" "managed" ∅ taken_world)
    as (Hdup & _ & _ & Hreg).
  assert ((State_init (Id "a") "file" "managed" ∅ taken_world).1 =
            Raise (DuplicateState "A state with id 'a' already exists")) as Hrun.
  { apply Hdup. reflexivity. }
  split; [exact Hrun|]. exact (Hreg _ Hrun).
Defined.

Example State_init_attribute_error_sample :
  ((StateRequisite_enter (StateFactory_call File (Id "/etc/a") None);;
    State_init (Id "/etc/b") "file" "managed"
      {[ "require" := VStr "pkg" ]}) fresh_world).1 = Raise AttributeError.
Proof. vm_compute. reflexivity. Qed.

(** X10.  Calling a declaration twice returns the same [{full_func:
    attrs}] both times, and the second call changes no object: the lists
    [attrs] rebinds in the attributes are already normalised. *)
Theorem call_state_twice (state : ref) (w : world) :
  ∃ v w1 w2,
    call_state state w = (Ok v, w1) ∧
    call_state state w1 = (Ok v, w2) ∧
    (∀ r, heap w2 r = heap w1 r) ∧
    registry w2 = registry w.
Proof.
  rewrite call_state_run. eexists _, _, _. split; [reflexivity|].
  rewrite call_state_run. cbn [heap next registry].
  rewrite fn_lookup_insert, State_call_idemp. split_and!; [done | | done].
  intros r. cbn [heap]. destruct (decide (state = r)) as [->|Hne].
  - by rewrite !fn_lookup_insert.
  - by rewrite !fn_lookup_insert_ne.
Qed.

(** X11.  Renders on one registry are independent: after [salt_data],
    whatever the registry held, an id used before is free again, and a
    declaration then constructed under it is all the next [salt_data]
    returns. *)
Theorem render_after_render (id_ module func : string)
    (kwargs : gmap string value) (w : world) :
  ∃ d w1 w2 d2 w3,
    StateRegistry_salt_data w = (Ok d, w1) ∧
    State_init (Id id_) module func kwargs w1 = (Ok (next w1), w2) ∧
    StateRegistry_salt_data w2 = (Ok (VDict d2), w3) ∧
    d2 = [(id_, VDict [(module +:+ "." +:+ func,
                        VList (State_attrs (heap w2 (next w1))).2)])] ∧
    State.kwargs (heap w2 (next w1)) = kwargs.
Proof.
  destruct (salt_data_run w) as (w1 & Hrun1 & Hreg1 & _).
  destruct (State_init_ok (Id id_) module func kwargs w1)
    as (w2 & Hinit & _ & _ & Hst & Hsec & Hother & Hrs & Hinc).
  { by rewrite Hreg1. }
  { rewrite Hreg1. apply List.Forall_nil. }
  destruct (salt_data_run w2) as (w3 & Hrun2 & _).
  rewrite Hreg1 in Hst, Hsec, Hother, Hrs, Hinc.
  cbn [is_extend negb section_of ident_name empty_registry
        StateRegistry.states StateRegistry.extends StateRegistry.includes
        StateRegistry.requisites app foldl] in *.
  exists (VDict (rendered w)), w1, w2, (rendered w2), w3.
  split_and!; [done.. | | by rewrite Hst].
  unfold rendered. rewrite Hsec, Hother, Hinc.
  rewrite !bool_decide_eq_false_2 by (intros Hne; by apply Hne).
  rewrite rendered_items_declaration_items.
  change (declaration_items (heap w2) [(id_, next w1)]) with
    [(id_, VDict [(State_full_func (heap w2 (next w1)),
                   VList (State_attrs (heap w2 (next w1))).2)])].
  unfold OrderedDict. cbn [foldl od_set fst snd]. by rewrite Hst at 1.
Qed.

Example render_after_render_sample :
  ((StateRegistry_salt_data;;
    State_init (Id "include") "file" "managed" ∅;;
    StateRegistry_salt_data) reserved_world).1 =
  Ok (VDict [("include", VDict [("file.managed", VList [])])]).
Proof. vm_compute. reflexivity. Qed.

(** ** Registered declarations stay *)

Lemma add_section_grows id_ state extend extend' w :
  ∃ added,
    section_of extend' (registry (StateRegistry_add id_ state extend w).2) =
      section_of extend' (registry w) ++ added.
Proof.
  destruct (add_frame id_ state extend w) as (_ & _ & Hother & _ & _ & Hsec).
  destruct (decide (extend' = extend)) as [->|Hne].
  - destruct Hsec as [-> | [_ ->]]; [exists [] | by eexists].
    by rewrite (right_id_L [] (++)).
  - replace extend' with (negb extend) by by destruct extend, extend'.
    exists []. by rewrite Hother, (right_id_L [] (++)).
Qed.

Lemma State_init_section_grows id_ module func kwargs extend w :
  ∃ added,
    section_of extend (registry (State_init id_ module func kwargs w).2) =
      section_of extend (registry w) ++ added.
Proof.
  destruct (State_init_registry id_ module func kwargs w) as [-> _].
  set (w0 := (alloc _ w).2).
  destruct (add_section_grows (ident_name id_) (next w) (is_extend id_) extend w0)
    as [added Hadded].
  by exists added.
Qed.

Lemma run_call_section_grows c extend w :
  c ≠ CallSaltData →
  ∃ added,
    section_of extend (registry (run_call c w).2) =
      section_of extend (registry w) ++ added.
Proof.
  assert (∃ added : list (string * ref),
            section_of extend (registry w) =
              section_of extend (registry w) ++ added) as Hsame.
  { exists []. by rewrite (right_id_L [] (++)). }
  intros Hc. destruct c; cbn [run_call].
  - run_M.
    pose proof (State_init_section_grows id_ module func kwargs extend w) as H.
    by destruct (State_init id_ module func kwargs w) as [[?|?] ?].
  - unfold invoke, StateFactory_getattr. run_M.
    destruct (_ && _); [done|]. unfold call_make_state. cbn.
    case_bool_decide; [done|].
    pose proof (State_init_section_grows id_ (StateFactory.module factory) func
                  kwargs extend w) as Hgrows.
    by destruct (State_init id_ _ func kwargs w) as [[?|?] ?].
  - apply add_section_grows.
  - by destruct extend.
  - by destruct extend.
  - unfold StateRegistry_pop_requisite. run_M.
    destruct (StateRegistry.requisites (registry w)); [done|].
    by destruct extend.
  - unfold State_enter. run_M.
    destruct (State.requisite (heap w state)); [|done]. by destruct extend.
  - done.
Qed.

Lemma od_get_app_Some {A} (k : string) (v : A) (d added : list (string * A)) :
  od_get k d = Some v → od_get k (d ++ added) = Some v.
Proof.
  induction d as [|[k' v'] d IH]; [done|]. cbn [app od_get].
  by case_decide.
Qed.

(** X12.  Registration is write-once.  Whatever calls of the registry,
    factories and declarations a program makes, raising or not, until
    [salt_data] is called, a section only grows at its end: an id that
    is registered keeps its place and the declaration it was registered
    with, and a later declaration of the same id replaces nothing. *)
Theorem registered_declarations_stay (cs : list call) (extend : bool)
    (w : world) :
  Forall (λ c, c ≠ CallSaltData) cs →
  (∃ added,
     section_of extend (registry (after_calls cs w)) =
       section_of extend (registry w) ++ added) ∧
  (∀ id_ state,
     od_get id_ (section_of extend (registry w)) = Some state →
     od_get id_ (section_of extend (registry (after_calls cs w))) = Some state).
Proof.
  intros Hcs.
  assert (∃ added,
            section_of extend (registry (after_calls cs w)) =
              section_of extend (registry w) ++ added) as [added Hadded].
  { unfold after_calls. revert w.
    induction Hcs as [|c cs Hc _ IH]; intros w; cbn [foldl].
    - exists []. by rewrite (right_id_L [] (++)).
    - destruct (IH (run_call c w).2) as [added2 ->].
      destruct (run_call_section_grows c extend w Hc) as [added1 ->].
      exists (added1 ++ added2). by rewrite (assoc_L (++)). }
  split; [by exists added|].
  intros id_ state Hget. rewrite Hadded. by apply od_get_app_Some.
Qed.

Lemma registered_declarations_stay_witness :
  od_get "a"
    (StateRegistry.states
       (registry
          (after_calls
             [CallState (Id "a") "file" "managed" ∅;
              CallFactory File "managed" (Id "b") ∅;
              CallAdd "a" 1 false]
             taken_world))) = Some 0.
Proof.
  destruct (registered_declarations_stay
              [CallState (Id "a") "file" "managed" ∅;
               CallFactory File "managed" (Id "b") ∅;
               CallAdd "a" 1 false]
              false taken_world) as [_ Hstay].
  - repeat (apply List.Forall_cons; [discriminate|]). apply List.Forall_nil.
  - apply Hstay. reflexivity.
Defined.

(** ** The operations [render] offers *)

Lemma split_dot_nonempty s : split_dot s ≠ [].
Proof.
  destruct s as [|c s]; [done|]. cbn [split_dot].
  destruct (Ascii.eqb c "."); [done|]. by destruct (split_dot s).
Qed.

Lemma split_dot_dotless s : dotless s = true → split_dot s = [s].
Proof.
  induction s as [|c s IH]; [done|]. cbn [dotless split_dot].
  destruct (Ascii.eqb c "."); [done|]. cbn [negb andb]. by intros ->%IH.
Qed.

Lemma split_dot_join m rest :
  dotless m = true → split_dot (m +:+ "." +:+ rest) = m :: split_dot rest.
Proof.
  induction m as [|c m IH]; [done|]. cbn [dotless].
  destruct (Ascii.eqb c ".") eqn:Hc; [done|]. cbn [negb andb]. intros Hd.
  change (split_dot (String c (m +:+ "." +:+ rest)) = String c m :: split_dot rest).
  cbn [split_dot]. by rewrite Hc, IH.
Qed.

Lemma split_dot_one s f : split_dot s = [f] → s = f ∧ dotless f = true.
Proof.
  revert f. induction s as [|c s IH]; intros f.
  - by intros [= <-].
  - cbn [split_dot]. destruct (Ascii.eqb c ".") eqn:Hc.
    + intros [= _ Hs]. by destruct (split_dot_nonempty s).
    + destruct (split_dot s) as [|piece pieces] eqn:Hs;
        [by destruct (split_dot_nonempty s)|].
      intros [= <- ->]. destruct (IH piece eq_refl) as [-> Hd].
      split; [done|]. cbn [dotless]. by rewrite Hc, Hd.
Qed.

Lemma split_dot_two s m f :
  split_dot s = [m; f] →
  s = m +:+ "." +:+ f ∧ dotless m = true ∧ dotless f = true.
Proof.
  revert m. induction s as [|c s IH]; intros m; [done|].
  cbn [split_dot]. destruct (Ascii.eqb c ".") eqn:Hc.
  - intros [= <- Hs]. apply split_dot_one in Hs as [-> Hf].
    apply Ascii.eqb_eq in Hc as ->. done.
  - destruct (split_dot s) as [|piece pieces] eqn:Hs; [done|].
    intros [= <- ->]. destruct (IH piece eq_refl) as (-> & Hm & Hf).
    split_and!; [done | | done]. cbn [dotless]. by rewrite Hc, Hm.
Qed.

(** A name has two pieces exactly when it is [m.f] with no other dot. *)
Lemma split_dot_two_iff s m f :
  split_dot s = [m; f] ↔
  s = m +:+ "." +:+ f ∧ dotless m = true ∧ dotless f = true.
Proof.
  split; [apply split_dot_two|]. intros (-> & Hm & Hf).
  by rewrite split_dot_join, split_dot_dotless.
Qed.

Lemma st_funcs_step_Some st_funcs name m f :
  split_dot name = [m; f] →
  st_funcs_step st_funcs name =
    Some (<[m := default [] (st_funcs !! m) ++ [f]]> st_funcs).
Proof.
  intros Hsplit. unfold st_funcs_step. rewrite Hsplit. f_equal.
  destruct (st_funcs !! m) as [l|] eqn:Hm.
  - rewrite decide_False by done. by rewrite (lookup_total_correct _ _ _ Hm).
  - rewrite decide_True by done.
    rewrite lookup_total_insert_eq, insert_insert_eq. done.
Qed.

Lemma st_funcs_step_None st_funcs name :
  st_funcs_step st_funcs name = None ↔ length (split_dot name) ≠ 2.
Proof.
  unfold st_funcs_step.
  destruct (split_dot name) as [|m [|f [|??]]]; cbn; split; (done || lia).
Qed.

Lemma st_funcs_loop_Some names st_funcs :
  Forall (λ name, length (split_dot name) = 2) names →
  ∃ g, st_funcs_loop st_funcs names = Some g ∧
    ∀ m, g !! m =
      match st_funcs !! m with
      | Some l =>
          Some (l ++ omap (λ name,
                  match split_dot name with
                  | [m'; f] => if decide (m' = m) then Some f else None
                  | _ => None
                  end) names)
      | None =>
          match omap (λ name,
                  match split_dot name with
                  | [m'; f] => if decide (m' = m) then Some f else None
                  | _ => None
                  end) names with
          | [] => None
          | l => Some l
          end
      end.
Proof.
  revert st_funcs. induction names as [|name names IH]; intros st_funcs Hall.
  - exists st_funcs. split; [done|]. intros m. cbn.
    destruct (st_funcs !! m); [by rewrite (right_id_L [] (++)) | done].
  - inversion_clear Hall as [|?? Hname Hall'].
    destruct (split_dot name) as [|m0 [|f0 [|??]]] eqn:Hsplit; try done.
    cbn [st_funcs_loop]. rewrite (st_funcs_step_Some _ _ m0 f0 Hsplit). cbn.
    destruct (IH (<[m0 := default [] (st_funcs !! m0) ++ [f0]]> st_funcs) Hall')
      as (g & -> & Hg).
    exists g. split; [done|]. intros m. rewrite Hg, Hsplit.
    destruct (decide (m0 = m)) as [->|Hne].
    + rewrite lookup_insert_eq. destruct (st_funcs !! m); cbn.
      * by rewrite <-(assoc_L (++)).
      * done.
    + by rewrite lookup_insert_ne.
Qed.

Lemma st_funcs_loop_None names st_funcs :
  st_funcs_loop st_funcs names = None ↔
  ∃ name, name ∈ names ∧ length (split_dot name) ≠ 2.
Proof.
  revert st_funcs. induction names as [|name names IH]; intros st_funcs.
  - split; [done|]. by intros (? & ?%elem_of_nil & _).
  - cbn [st_funcs_loop].
    destruct (st_funcs_step st_funcs name) as [g|] eqn:Hstep; cbn.
    + rewrite IH. split.
      * intros (n & Hn & Hlen). exists n. split; [|done].
        apply elem_of_cons. by right.
      * intros (n & [->|Hn]%elem_of_cons & Hlen).
        -- apply (proj2 (st_funcs_step_None st_funcs name)) in Hlen. congruence.
        -- by exists n.
    + split; [|done]. intros _. exists name. split.
      * apply elem_of_cons. by left.
      * by apply (proj1 (st_funcs_step_None st_funcs name)).
Qed.

Lemma st_funcs_loop_lookup names g m :
  st_funcs_loop ∅ names = Some g →
  ∀ f, f ∈ default [] (g !! m) ↔ ∃ name, name ∈ names ∧ split_dot name = [m; f].
Proof.
  intros Hloop.
  assert (Forall (λ name, length (split_dot name) = 2) names) as Hall.
  { apply list.Forall_forall. intros name Hname.
    destruct (decide (length (split_dot name) = 2)) as [|Hne]; [done|].
    assert (st_funcs_loop ∅ names = None) as Hnone; [|congruence].
    apply st_funcs_loop_None. by exists name. }
  destruct (st_funcs_loop_Some names ∅ Hall) as (g' & Hg' & Hlookup).
  assert (g' = g) as -> by congruence.
  intros f. rewrite Hlookup, lookup_empty.
  assert (f ∈ omap (λ name,
                match split_dot name with
                | [m'; f] => if decide (m' = m) then Some f else None
                | _ => None
                end) names ↔
          ∃ name, name ∈ names ∧ split_dot name = [m; f]) as <-.
  { rewrite list_elem_of_omap. split.
    - intros (name & Hname & Hf). exists name. split; [done|].
      destruct (split_dot name) as [|m' [|f' [|??]]]; try done.
      case_decide; [|done]. by simplify_eq.
    - intros (name & Hname & Hsplit). exists name. split; [done|].
      rewrite Hsplit. by rewrite decide_True. }
  by destruct (omap _ names).
Qed.

Lemma st_funcs_loop_nonempty names g m l :
  st_funcs_loop ∅ names = Some g → g !! m = Some l → l ≠ [].
Proof.
  intros Hloop Hm.
  assert (Forall (λ name, length (split_dot name) = 2) names) as Hall.
  { apply list.Forall_forall. intros name Hname.
    destruct (decide (length (split_dot name) = 2)) as [|Hne]; [done|].
    assert (st_funcs_loop ∅ names = None) as Hnone; [|congruence].
    apply st_funcs_loop_None. by exists name. }
  destruct (st_funcs_loop_Some names ∅ Hall) as (g' & Hg' & Hlookup).
  assert (g' = g) as -> by congruence.
  rewrite Hlookup, lookup_empty in Hm.
  destruct (omap _ names); [done|]. by injection Hm as <-.
Qed.

Lemma render_valid_funcs_lookup names g m l :
  render_valid_funcs names = Some g →
  g !! m = Some l →
  l ≠ [] ∧ StronglySorted String.le l ∧
  ∀ f, f ∈ l ↔
    dotless m = true ∧ dotless f = true ∧ m +:+ "." +:+ f ∈ names.
Proof.
  unfold render_valid_funcs.
  destruct (st_funcs_loop ∅ names) as [g0|] eqn:Hloop; [|done].
  intros [= <-]. rewrite lookup_fmap.
  destruct (g0 !! m) as [l0|] eqn:Hm; [|done]. intros [= <-].
  split_and!.
  - intros Hnil. apply (st_funcs_loop_nonempty _ _ _ _ Hloop Hm).
    apply Permutation_nil_r. by rewrite <-Hnil, merge_sort_Permutation.
  - apply StronglySorted_merge_sort; apply _.
  - intros f. rewrite merge_sort_Permutation.
    pose proof (st_funcs_loop_lookup names g0 m Hloop f) as Hf.
    rewrite Hm in Hf. cbn in Hf. rewrite Hf. split.
    + intros (name & Hname & (-> & Hdm & Hdf)%split_dot_two). done.
    + intros (Hdm & Hdf & Hname). eexists. split; [exact Hname|].
      by apply split_dot_two_iff.
Qed.

(** X13.  From names that all are [mod.func] with no further dot,
    [render] computes for every module that occurs the list of its
    functions: the list is not empty, sorted in ascending order, and holds
    [func] exactly when [mod.func] is among the names. *)
Theorem render_groups_functions_by_module (names : list string) :
  (∀ name, name ∈ names →
     ∃ m f, name = m +:+ "." +:+ f ∧ dotless m = true ∧ dotless f = true) →
  ∃ g, render_valid_funcs names = Some g ∧
    (∀ m l, g !! m = Some l →
       l ≠ [] ∧ StronglySorted String.le l ∧
       ∀ f, f ∈ l ↔
         dotless m = true ∧ dotless f = true ∧ m +:+ "." +:+ f ∈ names) ∧
    (∀ m f, dotless m = true → dotless f = true →
       m +:+ "." +:+ f ∈ names → ∃ l, g !! m = Some l ∧ f ∈ l).
Proof.
  intros Hnames.
  destruct (render_valid_funcs names) as [g|] eqn:Hg.
  - exists g. split; [done|]. split.
    + intros m l. by apply render_valid_funcs_lookup.
    + intros m f Hdm Hdf Hname. unfold render_valid_funcs in Hg.
      destruct (st_funcs_loop ∅ names) as [g0|] eqn:Hloop; [|done].
      injection Hg as <-.
      pose proof (st_funcs_loop_lookup names g0 m Hloop f) as Hf.
      assert (f ∈ default [] (g0 !! m)) as Hin.
      { apply Hf. eexists. split; [exact Hname|]. by apply split_dot_two_iff. }
      destruct (g0 !! m) as [l0|] eqn:Hm; [|by apply elem_of_nil in Hin].
      exists (merge_sort String.le l0). rewrite lookup_fmap, Hm.
      split; [done|]. by rewrite merge_sort_Permutation.
  - exfalso. unfold render_valid_funcs in Hg.
    destruct (st_funcs_loop ∅ names) as [g0|] eqn:Hloop; [done|].
    apply st_funcs_loop_None in Hloop as (name & Hname & Hlen).
    destruct (Hnames name Hname) as (m & f & -> & Hdm & Hdf).
    by rewrite split_dot_join, split_dot_dotless in Hlen.
Qed.

Lemma render_groups_functions_by_module_witness :
  ∃ g, render_valid_funcs ["file.managed"; "pkg.installed"; "file.absent"] = Some g ∧
    g !! "file" = Some ["absent"; "managed"].
Proof.
  destruct (render_groups_functions_by_module
              ["file.managed"; "pkg.installed"; "file.absent"])
    as (g & Hg & _).
  - intros name Hname.
    apply elem_of_cons in Hname as [->|Hname]; [by exists "file", "managed"|].
    apply elem_of_cons in Hname as [->|Hname]; [by exists "pkg", "installed"|].
    apply list_elem_of_singleton in Hname as ->. by exists "file", "absent".
  - exists g. split; [exact Hg|].
    injection Hg as <-. vm_compute. reflexivity.
Defined.

(** X14.  The grouping of [render] fails, on the unpacking of
    [func.split(".")], exactly when some name is not [mod.func] with one
    dot: a name without a dot or with two or more stops the render. *)
Theorem render_rejects_malformed_names (names : list string) :
  render_valid_funcs names = None ↔
  ∃ name, name ∈ names ∧
    ¬ ∃ m f, name = m +:+ "." +:+ f ∧ dotless m = true ∧ dotless f = true.
Proof.
  unfold render_valid_funcs.
  assert (∀ name, length (split_dot name) ≠ 2 ↔
            ¬ ∃ m f, name = m +:+ "." +:+ f ∧ dotless m = true ∧ dotless f = true)
    as Hlen.
  { intros name. split.
    - intros Hne (m & f & -> & Hdm & Hdf).
      by rewrite split_dot_join, split_dot_dotless in Hne.
    - intros Hno Hlen. apply Hno.
      destruct (split_dot name) as [|m [|f [|??]]] eqn:Hsplit; try done.
      exists m, f. by apply split_dot_two. }
  destruct (st_funcs_loop ∅ names) as [g0|] eqn:Hloop.
  - split; [done|]. intros (name & Hname & Hno).
    assert (st_funcs_loop ∅ names = None) as Hnone; [|congruence].
    apply st_funcs_loop_None. exists name. split; [done|]. by apply Hlen.
  - split; [|done]. intros _.
    apply st_funcs_loop_None in Hloop as (name & Hname & Hne).
    exists name. split; [done|]. by apply Hlen.
Qed.

Example render_rejects_samples :
  render_valid_funcs ["file.managed"; "pkg"] = None ∧
  render_valid_funcs ["file.managed"; "a.b.c"] = None ∧
  render_valid_funcs [] = Some ∅.
Proof. split_and!; reflexivity. Qed.

(** ** Sample runs of the scope edges *)

Lemma add_attribute_error_keeps_earlier_edges_witness :
  ∃ w',
    StateRegistry_add "/etc/b" 0 false two_scopes_world = (Raise AttributeError, w') ∧
    registry w' = registry two_scopes_world ∧
    State.kwargs (heap w' 0) !! "watch" =
      Some (VList [VDict [("file", VStr "/etc/a")]]) ∧
    State.kwargs (heap w' 0) !! "require" =
      Some (VReq (StateFactory_call Pkg (Id "nginx") None)).
Proof.
  destruct (add_attribute_error_keeps_earlier_edges "/etc/b" 0 false
              two_scopes_world [watch_scope] []
              (StateFactory_call File (Id "/etc/a") None))
    as (w' & Hrun & Hreg & Hedges & Hrest).
  - reflexivity.
  - reflexivity.
  - apply List.Forall_cons; [|apply List.Forall_nil]. vm_compute. exact I.
  - intros r r' Hr Hr' _ _.
    apply list_elem_of_singleton in Hr, Hr'. by rewrite Hr, Hr'.
  - vm_compute. intros [].
  - exists w'. split_and!; [exact Hrun | exact Hreg | |].
    + etrans; [apply Hedges|]; [discriminate|]. vm_compute. reflexivity.
    + etrans; [apply Hrest|]; [reflexivity | exact I|]. vm_compute. reflexivity.
Defined.

(** X15.  Where the id is free, every relation key of the scope stack is
    absent from the attributes of the declaration or holds a list, and
    at most one of them is supplied by the author, [add] registers the
    declaration and leaves under each relation key of the stack the
    elements the author supplied followed by the edges of the stack for
    that relation, oldest scope first; the attributes that hold no list
    and are no relation key of the stack are left as they were. *)
Theorem add_appends_edges_in_stack_order (id_ : string) (state : ref)
    (extend : bool) (w : world) :
  od_in id_ (section_of extend (registry w)) = false →
  Forall (appendable (State.kwargs (heap w state)))
    (StateRegistry.requisites (registry w)) →
  one_supplied (State.kwargs (heap w state))
    (StateRegistry.requisites (registry w)) →
  ∃ w', StateRegistry_add id_ state extend w = (Ok (), w') ∧
    od_get id_ (section_of extend (registry w')) = Some state ∧
    (∀ k, edges_for k (StateRegistry.requisites (registry w)) ≠ [] →
       State.kwargs (heap w' state) !! k =
         Some (VList (supplied (State.kwargs (heap w state) !! k) ++
                      edges_for k (StateRegistry.requisites (registry w))))) ∧
    (∀ k, edges_for k (StateRegistry.requisites (registry w)) = [] →
       scalar (State.kwargs (heap w state) !! k) →
       State.kwargs (heap w' state) !! k = State.kwargs (heap w state) !! k).
Proof.
  intros Hfresh Hall _.
  destruct (add_ok id_ state extend w Hfresh Hall)
    as (w' & Hrun & _ & _ & Hs & Hsec & _).
  exists w'. split; [done|]. split.
  - rewrite Hsec. apply od_get_snoc_fresh. by apply od_in_false.
  - rewrite Hs. cbn [State.kwargs State.set_kwargs].
    by apply foldl_append_edge_edges.
Qed.

Lemma add_appends_edges_in_stack_order_witness :
  ∃ w',
    StateRegistry_add "/etc/b" 0 false (scoped_world list_require) = (Ok (), w') ∧
    od_get "/etc/b" (StateRegistry.states (registry w')) = Some 0 ∧
    State.kwargs (heap w' 0) !! "require" =
      Some (VList [VReq (StateFactory_call Pkg (Id "nginx") None);
                   VDict [("file", VStr "/etc/a")]]).
Proof.
  destruct (add_appends_edges_in_stack_order "/etc/b" 0 false
              (scoped_world list_require))
    as (w' & Hrun & Hreg & Hedges & _).
  - reflexivity.
  - apply List.Forall_cons; [|apply List.Forall_nil]. vm_compute. exact I.
  - intros r r' Hr Hr' _ _.
    apply list_elem_of_singleton in Hr, Hr'. by rewrite Hr, Hr'.
  - exists w'. split_and!; [exact Hrun | exact Hreg |].
    etrans; [apply Hedges|]; [discriminate|]. vm_compute. reflexivity.
Defined.

(** ** The factories of [render] *)

(** X16.  A factory created for a module with the function list
    [render] computes for it refuses, with [InvalidFunction], exactly the
    functions [func] for which [mod.func] is not among the loaded names,
    [func] being no attribute of the factory object. *)
Theorem render_factory_refuses_unloaded (names : list string)
    (g : gmap string (list string)) (m func : string) (l : list string)
    (id_ : ident) (kwargs : gmap string value) (w : world) :
  render_valid_funcs names = Some g →
  g !! m = Some l →
  dotless func = true →
  func ∉ factory_attributes →
  ∃ run,
    StateFactory_invoke (StateFactory_init m (Some l)) func id_ kwargs = Some run ∧
    ((∃ msg, (run w).1 = Raise (InvalidFunction msg)) ↔
     m +:+ "." +:+ func ∉ names).
Proof.
  intros Hg Hm Hfunc Hattr.
  destruct (render_valid_funcs_lookup names g m l Hg Hm) as (Hne & _ & Hmem).
  eexists. split; [by apply StateFactory_invoke_getattr|].
  rewrite invoke_invalid_iff. unfold refused.
  cbn [StateFactory_init StateFactory.valid_funcs default].
  assert (dotless m = true) as Hdm.
  { destruct l as [|f l]; [done|].
    assert (f ∈ f :: l) as Hf by (apply elem_of_cons; by left).
    by apply Hmem in Hf as (? & _). }
  split.
  - intros [_ Hnin] Hname. apply Hnin, Hmem. done.
  - intros Hname. split; [done|]. intros Hin. by apply Hmem in Hin as (_ & _ & ?).
Qed.

Lemma render_factory_refuses_unloaded_witness :
  ∃ run,
    StateFactory_invoke (StateFactory_init "file" (Some ["absent"; "managed"]))
      "bogus" (Id "/etc/foo") ∅ = Some run ∧
    ∃ msg, (run fresh_world).1 = Raise (InvalidFunction msg).
Proof.
  destruct (render_factory_refuses_unloaded
              ["file.managed"; "pkg.installed"; "file.absent"]
              (list_to_map [("file", ["absent"; "managed"]); ("pkg", ["installed"])])
              "file" "bogus" ["absent"; "managed"] (Id "/etc/foo") ∅ fresh_world)
    as (run & Hrun & Hiff).
  - vm_compute. reflexivity.
  - vm_compute. reflexivity.
  - reflexivity.
  - apply (bool_decide_unpack _). vm_compute. reflexivity.
  - exists run. split; [exact Hrun|]. apply Hiff.
    apply (bool_decide_unpack _). vm_compute. reflexivity.
Defined.

(** With ['file.module'] not loaded, [File.module(...)] is refused by no
    [InvalidFunction]: normal lookup finds the attribute [module], a
    string, and calling it raises [TypeError]. *)
Example factory_attribute_sample :
  StateFactory_invoke (StateFactory_init "file" (Some ["absent"; "managed"]))
    "module" (Id "/etc/foo") ∅ = Some (raise TypeError).
Proof. reflexivity. Qed.
